(** * sscall: a point-to-point voice link over UDP

    A shallow embedding of the two program variants of the repository,

    - [Raw]:   src/sscall.c      (raw PCM blocks, no header), and
    - [Codec]: src/src/sscall.c  (Speex frames behind an 8-byte header),

    together with the properties of the natural-language specification
    that can be settled on them.

    Conventions.  C [int] is a 32-bit two's complement integer and
    [size_t] a 64-bit unsigned one (LP64); arithmetic on them is written
    with its wrap-around.  What the C standard leaves to the
    implementation and the claims depend on is gathered in a [host]
    record: the byte order and the behaviour of [malloc].  Calls into
    the environment (read, recvfrom, sendto, the clock, the condition
    variable, the Speex encoder) take their results from an explicit
    environment record and leave an [event] in a trace.  Each function
    of the sources is first given on its own, as a function of what it
    meets; [Threads] then interleaves the statements of the three
    threads where they touch what they share. *)

From Stdlib Require Import ZArith List Lia String.
From coqutil Require Import Byte Word.LittleEndianList.
From stdpp Require Import base list gmap.

Local Open Scope Z_scope.

(** ** Machine integers *)

Definition to_u32 (z : Z) : Z := z mod 2 ^ 32.

Definition to_int (z : Z) : Z := (z + 2 ^ 31) mod 2 ^ 32 - 2 ^ 31.

Definition to_size_t (z : Z) : Z := z mod 2 ^ 64.

Definition INT_MIN : Z := - 2 ^ 31.
Definition INT_MAX : Z := 2 ^ 31 - 1.

(** ** The host *)

Inductive byte_order := LittleEndian | BigEndian.

Record host := {
  endian : byte_order;
  (** [malloc_ok n] tells whether [malloc (n)] returns a block. *)
  malloc_ok : Z -> bool
}.

(** A [uint32_t] object as it lies in memory, and back. *)
Definition store32 (h : host) (v : Z) : list byte :=
  match endian h with
  | LittleEndian => le_split 4 v
  | BigEndian => rev (le_split 4 v)
  end.

Definition load32 (h : host) (bs : list byte) : Z :=
  match endian h with
  | LittleEndian => le_combine bs
  | BigEndian => le_combine (rev bs)
  end.

Definition bswap32 (v : Z) : Z := le_combine (rev (le_split 4 v)).

Definition htonl (h : host) (v : Z) : Z :=
  match endian h with
  | LittleEndian => bswap32 v
  | BigEndian => to_u32 v
  end.

(** [memcpy (dst, src + off, n)] out of the object [src]: the bytes read,
    or nothing when the read leaves the object. *)
Definition memcpy_from (src : list byte) (off n : Z) : option (list byte) :=
  if (0 <=? off) && (0 <=? n) && (off + n <=? Z.of_nat (length src))
  then Some (take (Z.to_nat n) (drop (Z.to_nat off) src))
  else None.

(** The signature as it travels: network byte order on every host. *)
Definition sig_on_wire : list byte := [Byte.xca; Byte.xfe; Byte.xba; Byte.xbe].

(** What a call can come to. *)
Inductive outcome (A : Type) :=
| Done (a : A)
| Exit (status : Z) (diagnostic : string)
| Fault.
Arguments Done {A} a.
Arguments Exit {A} status diagnostic.
Arguments Fault {A}.

(** ** list.h *)

(** Modelled from the spec: list.h, the intrusive circular doubly-linked
    list of the repository, is not among the sources.  A list head
    stands for the sequence of its entries from [head->next] on:
    [list_add_tail] links an entry in before the head, that is at the
    tail; [list_for_each_safe] visits the entries from the head's
    successor onwards and allows [list_del] of the visited one. *)
Definition INIT_LIST_HEAD {A} : list A := [].

Definition list_empty {A} (head : list A) : bool :=
  match head with [] => true | _ :: _ => false end.

Definition list_add_tail {A} (new : A) (head : list A) : list A :=
  head ++ [new].

(** ** The Speex jitter buffer *)

Definition FRAME_SIZE : Z := 320.
Definition COMPRESSED_BUF_SIZE : Z := 1500.
(** [sizeof (struct compressed_header)]: two packed [uint32_t]. *)
Definition sizeof_hdr : Z := 8.
(** [sizeof (spx_int16_t [FRAME_SIZE])]. *)
Definition sizeof_pcm : Z := FRAME_SIZE * 2.
(** [sizeof (struct compressed_buf)] and [sizeof (struct pcm_buf)]: a
    pointer, a [size_t] and a [struct list_head]. *)
Definition sizeof_entry : Z := 32.
Definition ETIMEDOUT : Z := 110.

(** One frame's worth of samples out of what the decoder hands back:
    the [FRAME_SIZE] slots of the caller's array. *)
Definition one_frame (samples : list Z) : list Z :=
  take (Z.to_nat FRAME_SIZE) (samples ++ replicate (Z.to_nat FRAME_SIZE) 0).

(** Modelled from the spec: speex_jitter_buffer.h and its implementation
    are not among the sources.  The state holds the compressed frames
    keyed by timestamp, the playback cursor, and what the decoder has
    been fed so far, latest first ([None] for a concealed frame).  The
    decoder itself is a parameter: from its input history to samples. *)
Record SpeexJitter := {
  jitter_frames : gmap Z (list byte);
  jitter_cursor : Z;
  jitter_fed : list (option (list byte));
  jitter_decoder : list (option (list byte)) -> list Z
}.

Definition speex_jitter_init (dec : list (option (list byte)) -> list Z)
  : SpeexJitter :=
  {| jitter_frames := ∅; jitter_cursor := 0; jitter_fed := [];
     jitter_decoder := dec |}.

(** put: keyed insertion of the [len] bytes at [packet]; a frame for a
    timestamp that is already stored or already consumed is dropped. *)
Definition speex_jitter_put (j : SpeexJitter) (packet : list byte)
    (len : Z) (timestamp : Z) : SpeexJitter :=
  if bool_decide (timestamp < jitter_cursor j) then j
  else match jitter_frames j !! timestamp with
       | Some _ => j
       | None =>
           {| jitter_frames :=
                <[timestamp := take (Z.to_nat len) packet]> (jitter_frames j);
              jitter_cursor := jitter_cursor j;
              jitter_fed := jitter_fed j;
              jitter_decoder := jitter_decoder j |}
       end.

(** get: one frame for the cursor, decoded from the stored frame or
    concealed when there is none; the cursor advances by one frame
    either way. *)
Definition speex_jitter_get (j : SpeexJitter) : SpeexJitter * list Z :=
  let fed := jitter_frames j !! jitter_cursor j :: jitter_fed j in
  ({| jitter_frames := jitter_frames j;
      jitter_cursor := jitter_cursor j + FRAME_SIZE;
      jitter_fed := fed;
      jitter_decoder := jitter_decoder j |},
   one_frame (jitter_decoder j fed)).

(** ** The codec variant, src/src/sscall.c *)

Module Codec.

Inductive event :=
| Sendto (datagram : list byte) (len : Z)
| Warn (msg : string)
| Printf (msg : string)
| CondTimedwait (tv_sec tv_nsec : Z)
| JitterGet
| AoPlay (pcm : list Z) (num_bytes : Z).

(** [struct compressed_buf]: the payload and its length. *)
Record compressed_buf := { buf : list byte; len : Z }.

(** What the playback thread and the main thread share. *)
Record shared := {
  speex_jitter : SpeexJitter;
  (** the entries linked on [compressed_buf.list] *)
  compressed_list : list compressed_buf
}.

(** *** capture *)

(** [speex_bits_write (bits, chars, max_nbytes)]: at most [max_nbytes]
    bytes of the encoded stream are written. *)
Definition speex_bits_write (bits : list byte) (max_nbytes : Z) : list byte :=
  take (Z.to_nat max_nbytes) bits.

(** What one turn of the capture loop meets. *)
Record capture_env := {
  ce_quit : bool;          (** [state->quit] under the lock *)
  ce_inbytes : Z;          (** result of [read] *)
  ce_bits : list byte;     (** the stream [speex_encode_int] produced *)
  ce_sendto : Z            (** result of [sendto] *)
}.

(** The datagram laid out in [outbuf]: header, then payload. *)
Definition frame (h : host) (timestamp : Z) (payload : list byte) : list byte :=
  store32 h (htonl h 0xcafebabe) ++ store32 h (to_u32 timestamp) ++ payload.

(** The body of the loop when it is not told to quit: the new value of
    [timestamp] and what was done. *)
Definition capture_body (h : host) (timestamp : Z) (e : capture_env)
  : Z * list event :=
  if 0 <? ce_inbytes e then
    let payload :=
      speex_bits_write (ce_bits e) (COMPRESSED_BUF_SIZE - sizeof_hdr) in
    let outbytes := Z.of_nat (length payload) in
    let outbuf := frame h timestamp payload in
    (to_int (timestamp + FRAME_SIZE),
     Sendto outbuf (outbytes + sizeof_hdr)
       :: (if ce_sendto e <? 0 then [Warn "sendto"] else []))
  else (timestamp, []).

Fixpoint capture_loop (h : host) (timestamp : Z) (envs : list capture_env)
  : list event :=
  match envs with
  | [] => []
  | e :: rest =>
      if ce_quit e then []
      else let '(timestamp', evs) := capture_body h timestamp e in
           evs ++ capture_loop h timestamp' rest
  end.

Definition capture (h : host) (envs : list capture_env) : list event :=
  capture_loop h 0 envs.

(** The datagrams handed to [sendto], in order. *)
Fixpoint sent (evs : list event) : list (list byte) :=
  match evs with
  | [] => []
  | Sendto d n :: rest => take (Z.to_nat n) d :: sent rest
  | _ :: rest => sent rest
  end.

(** *** process_compressed_packet *)

Definition enqueue_for_playback (cbuf : compressed_buf) (s : shared) : shared :=
  {| speex_jitter := speex_jitter s;
     compressed_list := list_add_tail cbuf (compressed_list s) |}.

(** [hdr->timestamp] of the header at the start of [mem]. *)
Definition hdr_timestamp (h : host) (mem : list byte) : option Z :=
  load32 h <$> memcpy_from mem 4 4.

(** [hdr->sig] of the header at the start of [mem]. *)
Definition hdr_sig (h : host) (mem : list byte) : option Z :=
  load32 h <$> memcpy_from mem 0 4.

(** [mem] is the object [buf] points into, [len] the number of bytes
    received. *)
Definition process_compressed_packet (h : host) (mem : list byte) (len : Z)
    (s : shared) : outcome shared :=
  if negb (malloc_ok h sizeof_entry) then Exit 1 "malloc"
  else
    let cbuf_len := to_size_t (len - sizeof_hdr) in
    if negb (malloc_ok h cbuf_len) then Exit 1 "malloc"
    else
      match memcpy_from mem sizeof_hdr cbuf_len with
      | None => Fault
      | Some payload =>
          match hdr_timestamp h mem with
          | None => Fault
          | Some ts =>
              let recv_timestamp := to_int ts in
              let j := speex_jitter_put (speex_jitter s) payload cbuf_len
                         recv_timestamp in
              Done (enqueue_for_playback {| buf := payload; len := cbuf_len |}
                      {| speex_jitter := j;
                         compressed_list := compressed_list s |})
          end
      end.

(** What a routed payload leaves behind: the frame put into the jitter
    buffer under its timestamp and an entry at the tail of the queue. *)
Definition routed (s : shared) (payload : list byte) (ts : Z) : shared :=
  enqueue_for_playback
    {| buf := payload; len := Z.of_nat (length payload) |}
    {| speex_jitter :=
         speex_jitter_put (speex_jitter s) payload
           (Z.of_nat (length payload)) ts;
       compressed_list := compressed_list s |}.

(** *** main: the receive loop *)

(** [recvfrom (srv_sockfd, buf, sizeof (buf), MSG_DONTWAIT, ...)] with a
    datagram pending: the datagram, cut to the size of [buf], is laid
    over the start of [buf]; the result is the number of bytes stored. *)
Definition recvfrom (mem : list byte) (datagram : list byte) : list byte * Z :=
  let got := take (length mem) datagram in
  (got ++ drop (length got) mem, Z.of_nat (length got)).

(** What one turn of the receive loop meets. *)
Record main_env := {
  me_sigint : bool;                   (** [handle_sigint] *)
  me_verbose : bool;                  (** [fverbose] *)
  me_datagram : option (list byte);   (** pending datagram, if any *)
  me_getnameinfo : Z                  (** result of [getnameinfo] *)
}.

Inductive main_turn :=
| Interrupted (evs : list event)
| Turned (mem : list byte) (s : shared) (evs : list event)
| Died (status : Z) (diagnostic : string) (evs : list event)
| Faulted (evs : list event).

Definition main_body (h : host) (e : main_env) (mem : list byte) (s : shared)
  : main_turn :=
  if me_sigint e then
    Interrupted (if me_verbose e then [Printf "Interrupted, exiting..."] else [])
  else
    match me_datagram e with
    | None => Turned mem s []
    | Some d =>
        let '(mem', bytes) := recvfrom mem d in
        if 0 <? bytes then
          let evs :=
            if me_verbose e then
              (if me_getnameinfo e <? 0 then [Warn "getnameinfo"] else [])
                ++ [Printf "Received %zd bytes from %s"]
            else [] in
          match process_compressed_packet h mem' bytes s with
          | Done s' => Turned mem' s' evs
          | Exit st msg => Died st msg evs
          | Fault => Faulted evs
          end
        else Turned mem' s []
    end.

(** *** main: from the command line to the running threads *)

(** An option as [getopt] hands it over; [arg] is what [strtol] makes of
    the option's argument. *)
Inductive cli_option :=
| opt_h
| opt_b (arg : Z)
| opt_c (arg : Z)
| opt_r (arg : Z)
| opt_d (arg : Z)
| opt_v
| opt_V
| opt_unknown.

(** The file-scope option variables, zero at program start. *)
Record flags := {
  fbits : Z; frate : Z; fchan : Z; fdevid : Z; fverbose : bool
}.

Definition no_flags : flags :=
  {| fbits := 0; frate := 0; fchan := 0; fdevid := 0; fverbose := false |}.

(** The [getopt] loop; a [long] stored into an [int] is cut to it. *)
Fixpoint parse_options (opts : list cli_option) (f : flags) : outcome flags :=
  match opts with
  | [] => Done f
  | opt_h :: _ => Exit 0 "usage"
  | opt_b arg :: rest =>
      parse_options rest
        {| fbits := to_int arg; frate := frate f; fchan := fchan f;
           fdevid := fdevid f; fverbose := fverbose f |}
  | opt_c arg :: rest =>
      parse_options rest
        {| fbits := fbits f; frate := frate f; fchan := to_int arg;
           fdevid := fdevid f; fverbose := fverbose f |}
  | opt_r arg :: rest =>
      parse_options rest
        {| fbits := fbits f; frate := to_int arg; fchan := fchan f;
           fdevid := fdevid f; fverbose := fverbose f |}
  | opt_d arg :: rest =>
      parse_options rest
        {| fbits := fbits f; frate := frate f; fchan := fchan f;
           fdevid := to_int arg; fverbose := fverbose f |}
  | opt_v :: rest =>
      parse_options rest
        {| fbits := fbits f; frate := frate f; fchan := fchan f;
           fdevid := fdevid f; fverbose := true |}
  | opt_V :: _ => Exit 0 "VERSION"
  | opt_unknown :: _ => Exit 1 ""
  end.

(** The argument of the last channel-count option, if there is one. *)
Fixpoint channel_option (opts : list cli_option) : option Z :=
  match opts with
  | [] => None
  | opt_c arg :: rest =>
      match channel_option rest with
      | Some later => Some later
      | None => Some arg
      end
  | _ :: rest => channel_option rest
  end.

Inductive worker := playback_thread | capture_thread.

(** The signal numbers come from the system's signal.h (here those of
    Linux); the handler only tells them apart. *)
Definition SIGINT : Z := 2.
Definition SIGUSR1 : Z := 10.

(** The calls of the setup, each noted when it is made, whether it
    succeeds or not. *)
Inductive setup_event :=
| AoOpenLive (devid rate bits chans : Z)
| InitSpeex
| PrintSettings
| Getaddrinfo
| Socket
| Setsockopt
| Bind
| Close
| SetupWarn (msg : string)
| PthreadCreate (w : worker)
| SetNonblocking
| Signal (signum : Z).

(** How one address of the list [getaddrinfo] gave for the server side
    fares in the loop that binds the socket. *)
Inductive bind_try :=
| NoSocket        (** [socket] fails *)
| NoReuse         (** [setsockopt] fails *)
| NoBind          (** [bind] fails *)
| Bound.

(** How the calls of the setup turn out. *)
Record setup_env := {
  se_default_driver : Z;     (** [ao_default_driver_id ()] *)
  se_device : bool;          (** [ao_open_live] gave a device *)
  se_cli_getaddrinfo : Z;
  (** for each address of [cli_servinfo] in turn: [socket] gave a
      descriptor *)
  se_cli_addrs : list bool;
  se_srv_getaddrinfo : Z;
  se_srv_addrs : list bind_try;   (** the addresses of [srv_servinfo] *)
  se_playback_create : Z;    (** result of the first [pthread_create] *)
  se_nonblocking_fd : bool;  (** [set_nonblocking] of the input succeeds *)
  se_nonblocking_sock : bool;  (** and that of the client socket *)
  se_capture_create : Z;     (** result of the second [pthread_create] *)
  se_signal_int : bool;      (** [signal (SIGINT, ...)] succeeds *)
  se_signal_usr1 : bool      (** [signal (SIGUSR1, ...)] succeeds *)
}.

(** [for (p0 = cli_servinfo; p0; p0 = p0->ai_next)]: the first address
    that gives a socket ends the loop; the result tells whether there
    was one ([p0] is not null). *)
Fixpoint socket_loop (addrs : list bool) : list setup_event * bool :=
  match addrs with
  | [] => ([], false)
  | true :: _ => ([Socket], true)
  | false :: rest =>
      let '(t, found) := socket_loop rest in (Socket :: t, found)
  end.

(** [for (p1 = srv_servinfo; p1; p1 = p1->ai_next)]: a socket that
    cannot be set up or bound is closed with a warning and the next
    address tried. *)
Fixpoint bind_loop (addrs : list bind_try) : list setup_event * bool :=
  match addrs with
  | [] => ([], false)
  | NoSocket :: rest =>
      let '(t, found) := bind_loop rest in (Socket :: t, found)
  | NoReuse :: rest =>
      let '(t, found) := bind_loop rest in
      (Socket :: Setsockopt :: Close :: SetupWarn "setsockopt" :: t, found)
  | NoBind :: rest =>
      let '(t, found) := bind_loop rest in
      (Socket :: Setsockopt :: Bind :: Close :: SetupWarn "bind" :: t, found)
  | Bound :: _ => ([Socket; Setsockopt; Bind], true)
  end.

(** The steps of [main] after the channel check, as a chain of calls
    each of which may end the process with status 1. *)
Definition after_channel_check (env : setup_env) (bits rate chan devid : Z)
    (verbose : bool) : list setup_event * outcome flags :=
  let devid := if devid =? 0 then se_default_driver env else devid in
  let t1 := [AoOpenLive devid rate bits chan] in
  if negb (se_device env) then (t1, Exit 1 "Error opening output device: %d")
  else
    let t2 := t1 ++ [InitSpeex] ++ (if verbose then [PrintSettings] else [])
                 ++ [Getaddrinfo] in
    if negb (se_cli_getaddrinfo env =? 0) then (t2, Exit 1 "getaddrinfo: %s")
    else
      let '(cli, p0) := socket_loop (se_cli_addrs env) in
      let t3 := t2 ++ cli in
      if negb p0 then (t3, Exit 1 "failed to bind socket")
      else
        let t4 := t3 ++ [Getaddrinfo] in
        if negb (se_srv_getaddrinfo env =? 0)
        then (t4, Exit 1 "getaddrinfo: %s")
        else
          let '(srv, p1) := bind_loop (se_srv_addrs env) in
          let t5 := t4 ++ srv in
          if negb p1 then (t5, Exit 1 "failed to bind socket")
          else
            let t6 := t5 ++ [PthreadCreate playback_thread] in
            if negb (se_playback_create env =? 0)
            then (t6, Exit 1 "pthread_create")
            else
              let t7 := t6 ++ [SetNonblocking] in
              if negb (se_nonblocking_fd env) then (t7, Exit 1 "fcntl")
              else
                let t8 := t7 ++ [SetNonblocking] in
                if negb (se_nonblocking_sock env) then (t8, Exit 1 "fcntl")
                else
                  let t9 := t8 ++ [PthreadCreate capture_thread] in
                  if negb (se_capture_create env =? 0)
                  then (t9, Exit 1 "pthread_create")
                  else
                    let t10 := t9 ++ [Signal SIGINT] in
                    if negb (se_signal_int env) then (t10, Exit 1 "signal")
                    else
                      let t11 := t10 ++ [Signal SIGUSR1] in
                      if negb (se_signal_usr1 env)
                      then (t11, Exit 1 "signal")
                      else
                        (t11,
                         Done {| fbits := bits; frate := rate; fchan := chan;
                                 fdevid := devid; fverbose := verbose |}).

(** [main] up to the receive loop; [argc] counts the arguments left
    after the options. *)
Definition main_setup (env : setup_env) (opts : list cli_option) (argc : Z)
  : list setup_event * outcome flags :=
  match parse_options opts no_flags with
  | Done f =>
      if negb (argc =? 3) then ([], Exit 1 "usage")
      else
        let bits := if fbits f =? 0 then 16 else fbits f in
        if fchan f =? 0 then
          let rate := if frate f =? 0 then 16000 else frate f in
          after_channel_check env bits rate 1 (fdevid f) (fverbose f)
        else if negb (fchan f =? 1) then
          ([], Exit 1 "Unsupported number of channels: %d")
        else
          let rate := if frate f =? 0 then 16000 else frate f in
          after_channel_check env bits rate (fchan f) (fdevid f) (fverbose f)
  | stopped => ([], stopped)
  end.

(** *** playback *)

(** What one turn of the playback loop meets.  While the thread waits on
    the condition variable the queue lock is free, and the main thread
    may route datagrams; [pe_arrived] lists them in order, payload and
    timestamp. *)
Record playback_env := {
  pe_tv_sec : Z;                       (** [gettimeofday]: seconds *)
  pe_tv_usec : Z;                      (** and microseconds *)
  pe_rc : Z;                           (** result of the timed wait *)
  pe_arrived : list (list byte * Z);
  pe_verbose : bool;                   (** [fverbose] *)
  pe_quit : bool                       (** [state->quit] under the lock *)
}.

Definition arrive (s : shared) (arrived : list (list byte * Z)) : shared :=
  fold_left (fun s p => routed s (fst p) (snd p)) arrived s.

(** The wait, taken when the list is empty at the time the lock is
    held: the shared state on waking and what was done. *)
Definition playback_wait (e : playback_env) (s : shared)
  : shared * list event :=
  let ts_sec := pe_tv_sec e + 3 in
  let ts_nsec := pe_tv_usec e * 1000 in
  if list_empty (compressed_list s) then
    (arrive s (pe_arrived e),
     CondTimedwait ts_sec ts_nsec
       :: (if pe_rc e =? ETIMEDOUT then
             if pe_verbose e then [Printf "Output thread is starving..."]
             else []
           else []))
  else (s, []).

(** The dequeue loop: one [speex_jitter_get] into [pcm] and one
    [ao_play (device, pcm, sizeof (pcm))] for each entry, which is then
    unlinked and freed.  (A put of the main thread may fall between two
    gets of one run; it changes what the decoder sees, not the calls
    made here, and is left out.) *)
Fixpoint dequeue (entries : list compressed_buf) (j : SpeexJitter)
  : SpeexJitter * list event :=
  match entries with
  | [] => (j, [])
  | cbuf :: rest =>
      let '(j1, pcm) := speex_jitter_get j in
      let '(j2, evs) := dequeue rest j1 in
      (j2, JitterGet :: AoPlay pcm sizeof_pcm :: evs)
  end.

Inductive playback_turn :=
| Quit (s : shared) (evs : list event)
| Played (s : shared) (evs : list event).

Definition playback_body (e : playback_env) (s : shared) : playback_turn :=
  let '(s1, evs1) := playback_wait e s in
  if pe_quit e then Quit s1 evs1
  else
    let '(j, evs2) := dequeue (compressed_list s1) (speex_jitter s1) in
    Played {| speex_jitter := j; compressed_list := [] |} (evs1 ++ evs2).

(** The blocks written to the sink, with the byte counts given. *)
Fixpoint plays (evs : list event) : list (list Z * Z) :=
  match evs with
  | [] => []
  | AoPlay pcm n :: rest => (pcm, n) :: plays rest
  | _ :: rest => plays rest
  end.


(** The number of calls of [speex_jitter_get]. *)
Fixpoint gets (evs : list event) : nat :=
  match evs with
  | [] => 0%nat
  | JitterGet :: rest => S (gets rest)
  | _ :: rest => gets rest
  end.



(** *** sig_handler *)

(** What the handler writes: [handle_sigint] and [fverbose]. *)
Record signalled := { handle_sigint : bool; verbose : bool }.

Definition sig_handler (signum : Z) (g : signalled) : signalled :=
  if signum =? SIGINT then
    {| handle_sigint := true; verbose := verbose g |}
  else if signum =? SIGUSR1 then
    {| handle_sigint := handle_sigint g; verbose := negb (verbose g) |}
  else g.

(** *** set_nonblocking *)

(** The flag comes from the system's fcntl.h (here that of Linux). *)
Definition O_NONBLOCK : Z := 2048.

(** [getfl] is the result of [fcntl (fd, F_GETFL)], [setfl] that of
    [fcntl (fd, F_SETFL, opts)] for the flags it is given; the result
    holds the flags set on the descriptor. *)
Definition set_nonblocking (getfl : Z) (setfl : Z -> Z) : outcome Z :=
  let opts := getfl in
  if opts <? 0 then Exit 1 "fcntl"
  else
    let opts := Z.lor opts O_NONBLOCK in
    if setfl opts <? 0 then Exit 1 "fcntl"
    else Done opts.

(** The calls of a setup in which every call is made, in the order of
    [main]; [cli] and [srv] are the calls of the two loops over the
    addresses. *)
Definition setup_calls (dev rate bits chan : Z) (verbose : bool)
    (cli srv : list setup_event) : list setup_event :=
  [AoOpenLive dev rate bits chan; InitSpeex]
    ++ (if verbose then [PrintSettings] else [])
    ++ [Getaddrinfo] ++ cli ++ [Getaddrinfo] ++ srv
    ++ [PthreadCreate playback_thread; SetNonblocking; SetNonblocking;
        PthreadCreate capture_thread; Signal SIGINT; Signal SIGUSR1].


(** The options that ask for the help screen or the version. *)
Definition informs (o : cli_option) : bool :=
  match o with opt_h | opt_V => true | _ => false end.

(** The options at which the [getopt] loop ends the process. *)
Definition stops (o : cli_option) : bool :=
  match o with opt_h | opt_V | opt_unknown => true | _ => false end.

(** The turns of the capture loop that send: those before the first one
    told to quit in which [read] gave something. *)
Fixpoint sending (envs : list capture_env) : list capture_env :=
  match envs with
  | [] => []
  | e :: rest =>
      if ce_quit e then []
      else if 0 <? ce_inbytes e then e :: sending rest
      else sending rest
  end.

(** The number of [warn] calls. *)
Fixpoint warnings (evs : list event) : nat :=
  match evs with
  | [] => 0%nat
  | Warn _ :: rest => S (warnings rest)
  | _ :: rest => warnings rest
  end.

End Codec.

(** ** The raw variant, src/sscall.c *)

Module Raw.

Definition PCM_BUF_SIZE : Z := 8192.
Definition UDELAY_SEND : Z := 50 * 1000.

Inductive event :=
| Sendto (datagram : list byte) (len : Z)
| Usleep (usec : Z)
| Warn (msg : string)
| Printf (msg : string)
| PrintfUnset (msg : string)  (** [printf] of an array that was not filled *)
| CondTimedwait (tv_sec tv_nsec : Z)
| AoPlay (output_samples : list byte) (num_bytes : Z).

(** [struct pcm_buf]: the block and its length. *)
Record pcm_buf := { buf : list byte; len : Z }.

(** *** do_output_pcm *)

(** [mem] is the object [buf] points into; the result is the list
    headed by [pcm_buf.list]. *)
Definition do_output_pcm (h : host) (mem : list byte) (len : Z)
    (pcm_list : list pcm_buf) : outcome (list pcm_buf) :=
  if negb (malloc_ok h sizeof_entry) then Exit 1 "malloc"
  else if negb (malloc_ok h len) then Exit 1 "malloc"
  else
    match memcpy_from mem 0 len with
    | None => Fault
    | Some block =>
        Done (list_add_tail {| buf := block; len := len |} pcm_list)
    end.

(** *** output_pcm *)

Record output_env := {
  oe_tv_sec : Z;                 (** [gettimeofday]: seconds *)
  oe_tv_usec : Z;                (** and microseconds *)
  oe_rc : Z;                     (** result of the timed wait *)
  oe_arrived : list pcm_buf;     (** queued by the main thread meanwhile *)
  oe_verbose : bool;             (** [fverbose] *)
  oe_quit : bool                 (** [state->quit] under the lock *)
}.

Definition output_wait (e : output_env) (pcm_list : list pcm_buf)
  : list pcm_buf * list event :=
  let ts_sec := oe_tv_sec e + 3 in
  let ts_nsec := oe_tv_usec e * 1000 in
  if list_empty pcm_list then
    (fold_left (fun l pctx => list_add_tail pctx l) (oe_arrived e) pcm_list,
     CondTimedwait ts_sec ts_nsec
       :: (if oe_rc e =? ETIMEDOUT then
             if oe_verbose e then [Printf "Output thread is starving..."]
             else []
           else []))
  else (pcm_list, []).

(** The dequeue loop: [ao_play (device, pctx->buf, pctx->len)] for each
    entry from the head on; the entry is then unlinked and freed. *)
Fixpoint dequeue (entries : list pcm_buf) : list event :=
  match entries with
  | [] => []
  | pctx :: rest => AoPlay (buf pctx) (len pctx) :: dequeue rest
  end.

Inductive output_turn :=
| Quit (pcm_list : list pcm_buf) (evs : list event)
| Played (pcm_list : list pcm_buf) (evs : list event).

Definition output_pcm_body (e : output_env) (pcm_list : list pcm_buf)
  : output_turn :=
  let '(l1, evs1) := output_wait e pcm_list in
  if oe_quit e then Quit l1 evs1
  else Played [] (evs1 ++ dequeue l1).

Fixpoint plays (evs : list event) : list (list byte * Z) :=
  match evs with
  | [] => []
  | AoPlay block n :: rest => (block, n) :: plays rest
  | _ :: rest => plays rest
  end.

(** A run of calls of [do_output_pcm], each with the object its [buf]
    points into and its [len], and no dequeueing in between. *)
Fixpoint pushes (h : host) (calls : list (list byte * Z))
    (pcm_list : list pcm_buf) : outcome (list pcm_buf) :=
  match calls with
  | [] => Done pcm_list
  | (mem, len) :: rest =>
      match do_output_pcm h mem len pcm_list with
      | Done l => pushes h rest l
      | stopped => stopped
      end
  end.

(** The entry such a call links in. *)
Definition pushed (call : list byte * Z) : pcm_buf :=
  {| buf := take (Z.to_nat (snd call)) (fst call); len := snd call |}.

(** *** input_pcm *)

Record input_env := {
  ie_quit : bool;            (** [state->quit] under the lock *)
  ie_read : list byte;       (** what [read] stored; empty when it failed *)
  ie_sendto : Z              (** result of [sendto] *)
}.

Fixpoint input_pcm (envs : list input_env) : list event :=
  match envs with
  | [] => []
  | e :: rest =>
      if ie_quit e then []
      else
        let data := take (Z.to_nat PCM_BUF_SIZE) (ie_read e) in
        let bytes := Z.of_nat (length data) in
        (if 0 <? bytes then
           Sendto data bytes
             :: (if ie_sendto e <? 0 then [Warn "sendto"] else [])
             ++ [Usleep UDELAY_SEND]
         else [])
          ++ input_pcm rest
  end.

(** *** main: the receive loop *)

Definition recvfrom (mem : list byte) (datagram : list byte) : list byte * Z :=
  let got := take (length mem) datagram in
  (got ++ drop (length got) mem, Z.of_nat (length got)).

Record main_env := {
  me_sigint : bool;                   (** [handle_sigint] *)
  me_verbose : bool;                  (** [fverbose] *)
  me_datagram : option (list byte);   (** pending datagram, if any *)
  me_getnameinfo : Z                  (** result of [getnameinfo] *)
}.

Inductive main_turn :=
| Interrupted (evs : list event)
| Turned (mem : list byte) (pcm_list : list pcm_buf) (evs : list event)
| Died (status : Z) (diagnostic : string) (evs : list event)
| Faulted (evs : list event).

(** In verbose mode the turn prints the sender's name out of [host].
    When [getnameinfo] fails the program warns and prints [host] all the
    same, and it has not filled the array for this datagram (the codec
    variant writes a name of its own there first): what is printed, and
    whether [printf] finds the end of a string inside the array, does
    not depend on the program.  Such a call is noted as [PrintfUnset];
    the turn is followed on as it goes when [printf] returns. *)
Definition main_body (h : host) (e : main_env) (mem : list byte)
    (pcm_list : list pcm_buf) : main_turn :=
  if me_sigint e then
    Interrupted (if me_verbose e then [Printf "Interrupted, exiting..."] else [])
  else
    match me_datagram e with
    | None => Turned mem pcm_list []
    | Some d =>
        let '(mem', bytes) := recvfrom mem d in
        if 0 <? bytes then
          let evs :=
            if me_verbose e then
              if me_getnameinfo e <? 0
              then [Warn "getnameinfo";
                    PrintfUnset "Received %zd bytes from %s"]
              else [Printf "Received %zd bytes from %s"]
            else [] in
          match do_output_pcm h mem' bytes pcm_list with
          | Done l => Turned mem' l evs
          | Exit st msg => Died st msg evs
          | Fault => Faulted evs
          end
        else Turned mem' pcm_list []
    end.

(** *** sig_handler *)

(** Only [SIGINT] is told apart. *)
Definition sig_handler (signum : Z) (handle_sigint : bool) : bool :=
  if signum =? Codec.SIGINT then true else handle_sigint.

(** *** main: from the command line to the running threads *)

(** The [getopt] loop; its option string has no [V], so that [getopt]
    answers ['?'] for it. *)
Fixpoint parse_options (opts : list Codec.cli_option) (f : Codec.flags)
  : outcome Codec.flags :=
  match opts with
  | [] => Done f
  | Codec.opt_h :: _ => Exit 0 "usage"
  | Codec.opt_b arg :: rest =>
      parse_options rest
        {| Codec.fbits := to_int arg; Codec.frate := Codec.frate f;
           Codec.fchan := Codec.fchan f; Codec.fdevid := Codec.fdevid f;
           Codec.fverbose := Codec.fverbose f |}
  | Codec.opt_c arg :: rest =>
      parse_options rest
        {| Codec.fbits := Codec.fbits f; Codec.frate := Codec.frate f;
           Codec.fchan := to_int arg; Codec.fdevid := Codec.fdevid f;
           Codec.fverbose := Codec.fverbose f |}
  | Codec.opt_r arg :: rest =>
      parse_options rest
        {| Codec.fbits := Codec.fbits f; Codec.frate := to_int arg;
           Codec.fchan := Codec.fchan f; Codec.fdevid := Codec.fdevid f;
           Codec.fverbose := Codec.fverbose f |}
  | Codec.opt_d arg :: rest =>
      parse_options rest
        {| Codec.fbits := Codec.fbits f; Codec.frate := Codec.frate f;
           Codec.fchan := Codec.fchan f; Codec.fdevid := to_int arg;
           Codec.fverbose := Codec.fverbose f |}
  | Codec.opt_v :: rest =>
      parse_options rest
        {| Codec.fbits := Codec.fbits f; Codec.frate := Codec.frate f;
           Codec.fchan := Codec.fchan f; Codec.fdevid := Codec.fdevid f;
           Codec.fverbose := true |}
  | Codec.opt_V :: _ => Exit 1 ""
  | Codec.opt_unknown :: _ => Exit 1 ""
  end.

Inductive worker := output_pcm_thread | input_pcm_thread.

(** The calls of the setup, each noted when it is made, whether it
    succeeds or not. *)
Inductive setup_event :=
| AoOpenLive (devid rate bits chans : Z)
| PrintSettings
| Getaddrinfo
| Socket
| Setsockopt
| Bind
| Close
| SetupWarn (msg : string)
| PthreadCreate (w : worker)
| SetNonblocking
| Signal.

Record setup_env := {
  se_default_driver : Z;     (** [ao_default_driver_id ()] *)
  se_device : bool;          (** [ao_open_live] gave a device *)
  se_cli_getaddrinfo : Z;
  (** for each address of [cli_servinfo] in turn: [socket] gave a
      descriptor *)
  se_cli_addrs : list bool;
  se_srv_getaddrinfo : Z;
  se_srv_addrs : list Codec.bind_try;  (** the addresses of [srv_servinfo] *)
  se_output_create : Z;      (** result of the first [pthread_create] *)
  se_nonblocking_fd : bool;  (** [set_nonblocking] of the input succeeds *)
  se_input_create : Z;       (** result of the second [pthread_create] *)
  se_signal : bool           (** the [signal] call succeeds *)
}.

(** The two loops over the addresses, as in the codec variant. *)
Fixpoint socket_loop (addrs : list bool) : list setup_event * bool :=
  match addrs with
  | [] => ([], false)
  | true :: _ => ([Socket], true)
  | false :: rest =>
      let '(t, found) := socket_loop rest in (Socket :: t, found)
  end.

Fixpoint bind_loop (addrs : list Codec.bind_try)
  : list setup_event * bool :=
  match addrs with
  | [] => ([], false)
  | Codec.NoSocket :: rest =>
      let '(t, found) := bind_loop rest in (Socket :: t, found)
  | Codec.NoReuse :: rest =>
      let '(t, found) := bind_loop rest in
      (Socket :: Setsockopt :: Close :: SetupWarn "setsockopt" :: t, found)
  | Codec.NoBind :: rest =>
      let '(t, found) := bind_loop rest in
      (Socket :: Setsockopt :: Bind :: Close :: SetupWarn "bind" :: t, found)
  | Codec.Bound :: _ => ([Socket; Setsockopt; Bind], true)
  end.

(** Some address gave a socket: [p0] is not null after the loop. *)
Definition se_cli_socket (env : setup_env) : bool :=
  snd (socket_loop (se_cli_addrs env)).

(** Some address could be bound: [p1] is not null after the loop. *)
Definition se_srv_bound (env : setup_env) : bool :=
  snd (bind_loop (se_srv_addrs env)).

(** [main] up to the receive loop; [argc] counts the arguments left
    after the options.  The results of [pthread_create] are tested for
    being negative. *)
Definition main_setup (env : setup_env) (opts : list Codec.cli_option)
    (argc : Z) : list setup_event * outcome Codec.flags :=
  match parse_options opts Codec.no_flags with
  | Done f =>
      if negb (argc =? 3) then ([], Exit 1 "usage")
      else
        let bits := if Codec.fbits f =? 0 then 16 else Codec.fbits f in
        let chan := if Codec.fchan f =? 0 then 1 else Codec.fchan f in
        let rate := if Codec.frate f =? 0 then 8000 else Codec.frate f in
        let devid :=
          if Codec.fdevid f =? 0 then se_default_driver env
          else Codec.fdevid f in
        let t1 := [AoOpenLive devid rate bits chan] in
        if negb (se_device env)
        then (t1, Exit 1 "Error opening output device: %d")
        else
          let t2 := t1 ++ (if Codec.fverbose f then [PrintSettings] else [])
                       ++ [Getaddrinfo] in
          if negb (se_cli_getaddrinfo env =? 0)
          then (t2, Exit 1 "getaddrinfo: %s")
          else
            let t3 := t2 ++ fst (socket_loop (se_cli_addrs env)) in
            if negb (se_cli_socket env)
            then (t3, Exit 1 "failed to bind socket")
            else
              let t4 := t3 ++ [Getaddrinfo] in
              if negb (se_srv_getaddrinfo env =? 0)
              then (t4, Exit 1 "getaddrinfo: %s")
              else
                let t5 := t4 ++ fst (bind_loop (se_srv_addrs env)) in
                if negb (se_srv_bound env)
                then (t5, Exit 1 "failed to bind socket")
                else
                  let t6 := t5 ++ [PthreadCreate output_pcm_thread] in
                  if se_output_create env <? 0
                  then (t6, Exit 1 "pthread_creapte failed: %d")
                  else
                    let t7 := t6 ++ [SetNonblocking] in
                    if negb (se_nonblocking_fd env) then (t7, Exit 1 "fcntl")
                    else
                      let t8 := t7 ++ [PthreadCreate input_pcm_thread] in
                      if se_input_create env <? 0
                      then (t8, Exit 1 "pthread_create failed: %d")
                      else
                        let t9 := t8 ++ [Signal] in
                        if negb (se_signal env) then (t9, Exit 1 "signal")
                        else
                          (t9,
                           Done {| Codec.fbits := bits; Codec.frate := rate;
                                   Codec.fchan := chan; Codec.fdevid := devid;
                                   Codec.fverbose := Codec.fverbose f |})
  | stopped => ([], stopped)
  end.

(** The datagrams handed to [sendto], in order. *)
Fixpoint sent (evs : list event) : list (list byte) :=
  match evs with
  | [] => []
  | Sendto d n :: rest => take (Z.to_nat n) d :: sent rest
  | _ :: rest => sent rest
  end.

(** Whether an array that was not filled has been printed. *)
Definition prints_unset (evs : list event) : bool :=
  existsb (fun ev => match ev with PrintfUnset _ => true | _ => false end) evs.

(** The number of [usleep] calls. *)
Fixpoint sleeps (evs : list event) : nat :=
  match evs with
  | [] => 0%nat
  | Usleep _ :: rest => S (sleeps rest)
  | _ :: rest => sleeps rest
  end.

(** The turns of the input loop that send: those before the first one
    told to quit in which [read] gave something. *)
Fixpoint sending (envs : list input_env) : list input_env :=
  match envs with
  | [] => []
  | e :: rest =>
      if ie_quit e then []
      else match ie_read e with
           | [] => sending rest
           | _ :: _ => e :: sending rest
           end
  end.

(** The entries are as [do_output_pcm] makes them: the length noted is
    that of the block, and the block is a datagram that fitted the
    receive buffer. *)
Definition well_formed (pctx : pcm_buf) : Prop :=
  len pctx = Z.of_nat (length (buf pctx)) /\ 0 < len pctx <= PCM_BUF_SIZE.

End Raw.

(** ** The three threads together *)

(** The threads of either variant, interleaved statement by statement
    where they touch what they share: the list of queued entries, the
    lock that guards it ([pcm_buf_lock], [compressed_buf_lock]), the
    condition variable [tx_pcm_cond] and the two quit flags.  A quit
    flag is read or written under a lock of its own that is held for
    that one access only; lock, access and unlock are one step.  The
    entries are of any type [block].  Allocation failures are left out
    here: they end the process. *)

Module Threads.

Inductive thread := Main | Output.

(** Where the main thread stands: in the receive loop, inside the push
    ([do_output_pcm], [enqueue_for_playback]), or on the way out. *)
Inductive main_pc (block : Type) :=
| M_loop                   (** top of the receive loop *)
| M_lock (b : block)       (** before [pthread_mutex_lock] of the push *)
| M_add (b : block)        (** before [list_add_tail] *)
| M_signal                 (** before [pthread_cond_signal] *)
| M_unlock                 (** before [pthread_mutex_unlock] *)
| M_stop_capture           (** before [quit = 1] of the capture side *)
| M_join_capture           (** in the first [pthread_join] *)
| M_stop_playback          (** before [quit = 1] of the playback side *)
| M_wake_lock              (** before the lock around the wake-up *)
| M_wake_signal            (** before [pthread_cond_signal] *)
| M_wake_unlock            (** before [pthread_mutex_unlock] *)
| M_join_playback          (** in the second [pthread_join] *)
| M_release                (** before the calls that give back *)
| M_done.
Arguments M_loop {block}.
Arguments M_lock {block} b.
Arguments M_add {block} b.
Arguments M_signal {block}.
Arguments M_unlock {block}.
Arguments M_stop_capture {block}.
Arguments M_join_capture {block}.
Arguments M_stop_playback {block}.
Arguments M_wake_lock {block}.
Arguments M_wake_signal {block}.
Arguments M_wake_unlock {block}.
Arguments M_join_playback {block}.
Arguments M_release {block}.
Arguments M_done {block}.

(** Where the playback thread ([output_pcm], [playback]) stands. *)
Inductive output_pc :=
| O_lock          (** before [pthread_mutex_lock] at the top of the loop *)
| O_check         (** before [list_empty] *)
| O_wait          (** inside [pthread_cond_timedwait], lock given up *)
| O_woken         (** woken, taking the lock again *)
| O_quit_check    (** before the test of [state->quit] *)
| O_dequeue       (** in [list_for_each_safe] *)
| O_exited.

(** Where the capture thread ([input_pcm], [capture]) stands. *)
Inductive input_pc := I_run | I_exited.

(** The steps of the shutdown path, for the record. *)
Inductive shutdown_step :=
| StopCapture | JoinCapture | StopPlayback | WakePlayback | JoinPlayback
| Release.

(** The two programs: src/sscall.c and src/src/sscall.c. *)
Inductive variant := RawPcm | Speex.

(** What the setup has acquired by the time the receive loop is
    entered. *)
Inductive resource :=
| AoLibrary        (** [ao_initialize] *)
| AoDevice         (** [ao_open_live] *)
| SpeexEncoder     (** [speex_encoder_init] *)
| SpeexDecoder     (** [speex_decoder_init] *)
| JitterBuffer     (** [speex_jitter_init] *)
| CliAddrinfo      (** [getaddrinfo] for the peer *)
| CliSocket        (** [socket] for the peer *)
| SrvAddrinfo      (** [getaddrinfo] for the own port *)
| SrvSocket.       (** [socket], bound to the own port *)

#[global] Instance resource_eq_dec : EqDecision resource.
Proof. solve_decision. Defined.

Definition acquired (v : variant) : list resource :=
  match v with
  | RawPcm =>
      [AoLibrary; AoDevice; CliAddrinfo; CliSocket; SrvAddrinfo; SrvSocket]
  | Speex =>
      [AoLibrary; AoDevice; SpeexEncoder; SpeexDecoder; JitterBuffer;
       CliAddrinfo; CliSocket; SrvAddrinfo; SrvSocket]
  end.

(** The calls of [main] after the second [pthread_join]; those of
    [deinit_speex] and [deinit_ao] are written out. *)
Inductive release_call :=
| speex_encoder_destroy | speex_decoder_destroy | speex_jitter_destroy
| ao_close | ao_shutdown
| freeaddrinfo_cli | freeaddrinfo_srv.

Definition release_calls (v : variant) : list release_call :=
  match v with
  | RawPcm => [ao_close; ao_shutdown; freeaddrinfo_cli; freeaddrinfo_srv]
  | Speex =>
      [speex_encoder_destroy; speex_decoder_destroy; speex_jitter_destroy;
       ao_close; ao_shutdown; freeaddrinfo_cli; freeaddrinfo_srv]
  end.

(** What a call gives back. *)
Definition released (c : release_call) : resource :=
  match c with
  | speex_encoder_destroy => SpeexEncoder
  | speex_decoder_destroy => SpeexDecoder
  | speex_jitter_destroy => JitterBuffer
  | ao_close => AoDevice
  | ao_shutdown => AoLibrary
  | freeaddrinfo_cli => CliAddrinfo
  | freeaddrinfo_srv => SrvAddrinfo
  end.

Definition give_back (held : list resource) (c : release_call)
  : list resource :=
  filter (fun r => r <> released c) held.

Definition release (v : variant) (held : list resource) : list resource :=
  fold_left give_back (release_calls v) held.

Record state (block : Type) := {
  queue : list block;          (** the entries on the list, head first *)
  lock : option thread;        (** who holds the lock of the list *)
  mpc : main_pc block;
  opc : output_pc;
  ipc : input_pc;
  output_quit : bool;
  input_quit : bool;
  played : list block;         (** the entries given to [ao_play] so far *)
  pushed : list block;         (** the entries ever linked in *)
  shutdown : list shutdown_step;  (** the shutdown steps taken so far *)
  kind : variant;              (** which of the two programs runs *)
  held : list resource         (** what the process holds *)
}.
Arguments queue {block} s.
Arguments lock {block} s.
Arguments mpc {block} s.
Arguments opc {block} s.
Arguments ipc {block} s.
Arguments output_quit {block} s.
Arguments input_quit {block} s.
Arguments played {block} s.
Arguments pushed {block} s.
Arguments shutdown {block} s.
Arguments kind {block} s.
Arguments held {block} s.

Definition init (block : Type) (v : variant) : state block :=
  {| queue := []; lock := None; mpc := M_loop; opc := O_lock; ipc := I_run;
     output_quit := false; input_quit := false;
     played := []; pushed := []; shutdown := [];
     kind := v; held := acquired v |}.

(** Who moves, and what the environment decides at that point. *)
Inductive label (block : Type) :=
| main_receives (b : block)   (** [recvfrom] stores a datagram *)
| main_sigint                 (** [handle_sigint] is found set *)
| main_step                   (** any other statement of the main thread *)
| output_step                 (** a statement of the playback thread *)
| output_timeout              (** the timed wait runs out *)
| input_step.                 (** a turn of the capture loop *)
Arguments main_receives {block} b.
Arguments main_sigint {block}.
Arguments main_step {block}.
Arguments output_step {block}.
Arguments output_timeout {block}.
Arguments input_step {block}.

Section Steps.
Context {block : Type}.

Definition set_main (pc : main_pc block) (s : state block) : state block :=
  {| queue := queue s; lock := lock s; mpc := pc; opc := opc s; ipc := ipc s;
     output_quit := output_quit s; input_quit := input_quit s;
     played := played s; pushed := pushed s; shutdown := shutdown s;
     kind := kind s; held := held s |}.

Definition set_output (pc : output_pc) (s : state block) : state block :=
  {| queue := queue s; lock := lock s; mpc := mpc s; opc := pc; ipc := ipc s;
     output_quit := output_quit s; input_quit := input_quit s;
     played := played s; pushed := pushed s; shutdown := shutdown s;
     kind := kind s; held := held s |}.

Definition set_input (pc : input_pc) (s : state block) : state block :=
  {| queue := queue s; lock := lock s; mpc := mpc s; opc := opc s; ipc := pc;
     output_quit := output_quit s; input_quit := input_quit s;
     played := played s; pushed := pushed s; shutdown := shutdown s;
     kind := kind s; held := held s |}.

Definition set_lock (o : option thread) (s : state block) : state block :=
  {| queue := queue s; lock := o; mpc := mpc s; opc := opc s; ipc := ipc s;
     output_quit := output_quit s; input_quit := input_quit s;
     played := played s; pushed := pushed s; shutdown := shutdown s;
     kind := kind s; held := held s |}.

Definition note (st : shutdown_step) (s : state block) : state block :=
  {| queue := queue s; lock := lock s; mpc := mpc s; opc := opc s; ipc := ipc s;
     output_quit := output_quit s; input_quit := input_quit s;
     played := played s; pushed := pushed s;
     shutdown := shutdown s ++ [st];
     kind := kind s; held := held s |}.

(** [list_add_tail (&pctx->list, &pcm_buf.list)] *)
Definition link (b : block) (s : state block) : state block :=
  {| queue := list_add_tail b (queue s); lock := lock s; mpc := mpc s;
     opc := opc s; ipc := ipc s;
     output_quit := output_quit s; input_quit := input_quit s;
     played := played s; pushed := pushed s ++ [b];
     shutdown := shutdown s;
     kind := kind s; held := held s |}.

(** [ao_play] of the head entry, then [list_del] and [free] *)
Definition play_head (b : block) (rest : list block) (s : state block)
  : state block :=
  {| queue := rest; lock := lock s; mpc := mpc s; opc := opc s; ipc := ipc s;
     output_quit := output_quit s; input_quit := input_quit s;
     played := played s ++ [b]; pushed := pushed s;
     shutdown := shutdown s;
     kind := kind s; held := held s |}.

Definition set_output_quit (s : state block) : state block :=
  {| queue := queue s; lock := lock s; mpc := mpc s; opc := opc s; ipc := ipc s;
     output_quit := true; input_quit := input_quit s;
     played := played s; pushed := pushed s; shutdown := shutdown s;
     kind := kind s; held := held s |}.

Definition set_input_quit (s : state block) : state block :=
  {| queue := queue s; lock := lock s; mpc := mpc s; opc := opc s; ipc := ipc s;
     output_quit := output_quit s; input_quit := true;
     played := played s; pushed := pushed s; shutdown := shutdown s;
     kind := kind s; held := held s |}.

(** The calls after the second join, one after the other. *)
Definition give_all_back (s : state block) : state block :=
  {| queue := queue s; lock := lock s; mpc := mpc s; opc := opc s; ipc := ipc s;
     output_quit := output_quit s; input_quit := input_quit s;
     played := played s; pushed := pushed s; shutdown := shutdown s;
     kind := kind s; held := release (kind s) (held s) |}.

(** [pthread_mutex_lock]: only a free lock can be taken. *)
Definition acquire (t : thread) (s : state block) : option (state block) :=
  match lock s with
  | None => Some (set_lock (Some t) s)
  | Some _ => None
  end.

(** [pthread_cond_signal (&tx_pcm_cond)]: a thread inside the wait is
    woken; without one the signal has no effect. *)
Definition cond_signal (s : state block) : state block :=
  match opc s with
  | O_wait => set_output O_woken s
  | _ => s
  end.

(** One statement of the main thread. *)
Definition main_next (s : state block) : option (state block) :=
  match mpc s with
  | M_loop => Some s                       (* nothing pending *)
  | M_lock b => set_main (M_add b) <$> acquire Main s
  | M_add b => Some (set_main M_signal (link b s))
  | M_signal => Some (set_main M_unlock (cond_signal s))
  | M_unlock => Some (set_main M_loop (set_lock None s))
  | M_stop_capture =>
      Some (set_main M_join_capture (note StopCapture (set_input_quit s)))
  | M_join_capture =>
      match ipc s with
      | I_exited => Some (set_main M_stop_playback (note JoinCapture s))
      | I_run => None
      end
  | M_stop_playback =>
      Some (set_main M_wake_lock (note StopPlayback (set_output_quit s)))
  | M_wake_lock => set_main M_wake_signal <$> acquire Main s
  | M_wake_signal =>
      Some (set_main M_wake_unlock (note WakePlayback (cond_signal s)))
  | M_wake_unlock => Some (set_main M_join_playback (set_lock None s))
  | M_join_playback =>
      match opc s with
      | O_exited => Some (set_main M_release (note JoinPlayback s))
      | _ => None
      end
  | M_release => Some (set_main M_done (note Release (give_all_back s)))
  | M_done => None
  end.

(** One statement of the playback thread. *)
Definition output_next (s : state block) : option (state block) :=
  match opc s with
  | O_lock => set_output O_check <$> acquire Output s
  | O_check =>
      if list_empty (queue s)
      then Some (set_output O_wait (set_lock None s))
      else Some (set_output O_quit_check s)
  | O_wait => None
  | O_woken => set_output O_quit_check <$> acquire Output s
  | O_quit_check =>
      if output_quit s
      then Some (set_output O_exited (set_lock None s))
      else Some (set_output O_dequeue s)
  | O_dequeue =>
      match queue s with
      | b :: rest => Some (play_head b rest s)
      | [] => Some (set_output O_lock (set_lock None s))
      end
  | O_exited => None
  end.

(** One turn of the capture loop. *)
Definition input_next (s : state block) : option (state block) :=
  match ipc s with
  | I_run => Some (if input_quit s then set_input I_exited s else s)
  | I_exited => None
  end.

Definition step (s : state block) (l : label block) : option (state block) :=
  match l with
  | main_receives b =>
      match mpc s with M_loop => Some (set_main (M_lock b) s) | _ => None end
  | main_sigint =>
      match mpc s with M_loop => Some (set_main M_stop_capture s) | _ => None end
  | main_step => main_next s
  | output_step => output_next s
  | output_timeout =>
      match opc s with O_wait => Some (set_output O_woken s) | _ => None end
  | input_step => input_next s
  end.

Fixpoint run (s : state block) (ls : list (label block))
  : option (state block) :=
  match ls with
  | [] => Some s
  | l :: rest =>
      match step s l with
      | Some s' => run s' rest
      | None => None
      end
  end.

Definition reachable (s : state block) : Prop :=
  exists v ls, run (init block v) ls = Some s.

(** The shutdown steps in the order of the program text. *)
Definition shutdown_order : list shutdown_step :=
  [StopCapture; JoinCapture; StopPlayback; WakePlayback; JoinPlayback; Release].

(** How many of them lie behind the main thread at each point. *)
Definition shutdown_done (pc : main_pc block) : nat :=
  match pc with
  | M_loop | M_lock _ | M_add _ | M_signal | M_unlock | M_stop_capture => 0
  | M_join_capture => 1
  | M_stop_playback => 2
  | M_wake_lock | M_wake_signal => 3
  | M_wake_unlock | M_join_playback => 4
  | M_release => 5
  | M_done => 6
  end.

(** The statements between which each thread holds the lock. *)
Definition output_holds (pc : output_pc) : bool :=
  match pc with
  | O_check | O_quit_check | O_dequeue => true
  | _ => false
  end.

Definition main_holds (pc : main_pc block) : bool :=
  match pc with
  | M_add _ | M_signal | M_unlock | M_wake_signal | M_wake_unlock => true
  | _ => false
  end.

(** What holds of every state the threads can get into. *)
Record invariant (s : state block) : Prop := {
  (** the lock is held exactly inside the critical sections, by one
      thread at a time *)
  inv_lock :
    lock s = if output_holds (opc s) then Some Output
             else if main_holds (mpc s) then Some Main else None;
  inv_exclusion : output_holds (opc s) && main_holds (mpc s) = false;
  (** a waiting consumer and a filled list: the signal is the next
      statement of the main thread *)
  inv_wake : opc s = O_wait -> queue s <> [] -> mpc s = M_signal;
  (** every entry linked in has been played or is still queued, in the
      order of the pushes *)
  inv_fifo : pushed s = played s ++ queue s;
  (** the shutdown steps are taken in the order of the program text *)
  inv_shutdown :
    shutdown s = take (shutdown_done (mpc s)) shutdown_order;
  (** a quit flag is set from its shutdown step on, not before *)
  inv_input_quit : input_quit s = (1 <=? shutdown_done (mpc s))%nat;
  inv_output_quit : output_quit s = (3 <=? shutdown_done (mpc s))%nat;
  inv_capture_joined : (2 <= shutdown_done (mpc s))%nat -> ipc s = I_exited;
  inv_playback_joined : (5 <= shutdown_done (mpc s))%nat -> opc s = O_exited;
  (** a thread leaves its loop only on its quit flag *)
  inv_input_exited : ipc s = I_exited -> input_quit s = true;
  inv_output_exited : opc s = O_exited -> output_quit s = true;
  (** what was acquired is held up to the last shutdown step, which
      gives back what its calls release *)
  inv_held :
    held s = if (6 <=? shutdown_done (mpc s))%nat
             then release (kind s) (acquired (kind s))
             else acquired (kind s)
}.

(** How far the threads are from the end of the shutdown when the
    playback thread is let run while it holds the lock, the main thread
    otherwise, and a thread that is waited for in its turn: the
    statements left to the main thread count most, then those of the
    capture thread, then those of the playback thread up to the point
    where it gives the lock back (quit flag clear) or leaves (quit flag
    set). *)
Definition main_rank (pc : main_pc block) : nat :=
  match pc with
  | M_lock _ => 13 | M_add _ => 12 | M_signal => 11 | M_unlock => 10
  | M_loop => 9 | M_stop_capture => 8 | M_join_capture => 7
  | M_stop_playback => 6 | M_wake_lock => 5 | M_wake_signal => 4
  | M_wake_unlock => 3 | M_join_playback => 2 | M_release => 1
  | M_done => 0
  end.

Definition input_rank (pc : input_pc) : nat :=
  match pc with I_run => 1 | I_exited => 0 end.

Definition output_rank (pc : output_pc) (queued : nat) (quit : bool) : nat :=
  if quit then
    match pc with
    | O_dequeue => queued + 7 | O_lock => 6 | O_check => 5 | O_wait => 4
    | O_woken => 3 | O_quit_check => 2 | O_exited => 0
    end
  else
    match pc with
    | O_check => queued + 3 | O_quit_check => queued + 2
    | O_dequeue => queued + 1
    | _ => 0
    end.

Definition distance (s : state block) : nat :=
  8 * main_rank (mpc s) + input_rank (ipc s)
  + output_rank (opc s) (length (queue s)) (output_quit s).

End Steps.

End Threads.

(** ** Sample data *)

Module Sample.

(** A little-endian host whose [malloc] serves requests up to 1 GiB. *)
Definition x86_64 : host :=
  {| endian := LittleEndian; malloc_ok := fun n => n <=? 2 ^ 30 |}.

(** A turn of the capture loop that reads a frame and encodes it to
    three bytes. *)
Definition reading : Codec.capture_env :=
  {| Codec.ce_quit := false; Codec.ce_inbytes := 640;
     Codec.ce_bits := [Byte.x01; Byte.x02; Byte.x03];
     Codec.ce_sendto := 11 |}.

(** A decoder that answers silence. *)
Definition silent (fed : list (option (list byte))) : list Z := [].

Definition fresh : Codec.shared :=
  {| Codec.speex_jitter := speex_jitter_init silent;
     Codec.compressed_list := INIT_LIST_HEAD |}.

Definition zeroes (n : nat) : list byte := replicate n Byte.x00.

(** Nine bytes that do not start with the signature: DE AD BE EF, then
    a timestamp field of 320 and one byte of payload. *)
Definition stray : list byte :=
  [Byte.xde; Byte.xad; Byte.xbe; Byte.xef;
   Byte.x40; Byte.x01; Byte.x00; Byte.x00; Byte.x07].

(** A turn of the receive loop that finds [d] pending. *)
Definition receiving (d : list byte) : Codec.main_env :=
  {| Codec.me_sigint := false; Codec.me_verbose := false;
     Codec.me_datagram := Some d; Codec.me_getnameinfo := 0 |}.

(** The labels of a run in which a block is queued while the playback
    thread waits, up to the point where the main thread is about to
    signal. *)
Definition racing_push : list (Threads.label Z) :=
  [Threads.output_step; Threads.output_step;
   Threads.main_receives 7; Threads.main_step; Threads.main_step].

(** The labels of a run in which a block is queued, the interrupt
    arrives before the playback thread gets to run, and everything is
    shut down. *)
Definition interrupted_call : list (Threads.label Z) :=
  racing_push
    ++ [Threads.main_step; Threads.main_step;          (* signal, unlock *)
        Threads.main_sigint;
        Threads.main_step;                             (* capture quit *)
        Threads.input_step;
        Threads.main_step;                             (* joined *)
        Threads.main_step;                             (* playback quit *)
        Threads.main_step; Threads.main_step; Threads.main_step;
        Threads.output_step; Threads.output_step;      (* lock, quit seen *)
        Threads.main_step;                             (* joined *)
        Threads.main_step].                            (* released *)

(** Where [racing_push] leads. *)
Definition about_to_signal : Threads.state Z :=
  {| Threads.queue := [7]; Threads.lock := Some Threads.Main;
     Threads.mpc := Threads.M_signal; Threads.opc := Threads.O_wait;
     Threads.ipc := Threads.I_run;
     Threads.output_quit := false; Threads.input_quit := false;
     Threads.played := []; Threads.pushed := [7];
     Threads.shutdown := [];
     Threads.kind := Threads.Speex;
     Threads.held := Threads.acquired Threads.Speex |}.

(** Where [interrupted_call] leads. *)
Definition all_gone : Threads.state Z :=
  {| Threads.queue := [7]; Threads.lock := None;
     Threads.mpc := Threads.M_done; Threads.opc := Threads.O_exited;
     Threads.ipc := Threads.I_exited;
     Threads.output_quit := true; Threads.input_quit := true;
     Threads.played := []; Threads.pushed := [7];
     Threads.shutdown := Threads.shutdown_order;
     Threads.kind := Threads.Speex;
     Threads.held := [Threads.CliSocket; Threads.SrvSocket] |}.

(** Where it stands when the playback thread has just left: the main
    thread is in the second join, the block still queued. *)
Definition playback_gone : Threads.state Z :=
  {| Threads.queue := [7]; Threads.lock := None;
     Threads.mpc := Threads.M_join_playback; Threads.opc := Threads.O_exited;
     Threads.ipc := Threads.I_exited;
     Threads.output_quit := true; Threads.input_quit := true;
     Threads.played := []; Threads.pushed := [7];
     Threads.shutdown :=
       [Threads.StopCapture; Threads.JoinCapture; Threads.StopPlayback;
        Threads.WakePlayback];
     Threads.kind := Threads.Speex;
     Threads.held := Threads.acquired Threads.Speex |}.

(** Where it leads in the raw variant. *)
Definition raw_all_gone : Threads.state Z :=
  {| Threads.queue := [7]; Threads.lock := None;
     Threads.mpc := Threads.M_done; Threads.opc := Threads.O_exited;
     Threads.ipc := Threads.I_exited;
     Threads.output_quit := true; Threads.input_quit := true;
     Threads.played := []; Threads.pushed := [7];
     Threads.shutdown := Threads.shutdown_order;
     Threads.kind := Threads.RawPcm;
     Threads.held := [Threads.CliSocket; Threads.SrvSocket] |}.

(** A big-endian host with the same [malloc]. *)
Definition big_endian : host :=
  {| endian := BigEndian; malloc_ok := fun n => n <=? 2 ^ 30 |}.

(** A setup of the raw variant in which the threads cannot be created
    ([pthread_create] answers [EAGAIN]) and every other call succeeds. *)
Definition no_threads : Raw.setup_env :=
  {| Raw.se_default_driver := 2; Raw.se_device := true;
     Raw.se_cli_getaddrinfo := 0; Raw.se_cli_addrs := [true];
     Raw.se_srv_getaddrinfo := 0; Raw.se_srv_addrs := [Codec.Bound];
     Raw.se_output_create := 11; Raw.se_nonblocking_fd := true;
     Raw.se_input_create := 11; Raw.se_signal := true |}.

(** The labels of a run in which the interrupt comes while the playback
    thread is at the top of its loop: the main thread signals before
    the playback thread has begun to wait. *)
Definition missed_wake : list (Threads.label Z) :=
  [Threads.main_sigint;
   Threads.main_step;                             (* capture quit *)
   Threads.input_step;
   Threads.main_step;                             (* joined *)
   Threads.main_step;                             (* playback quit *)
   Threads.main_step; Threads.main_step; Threads.main_step;
   Threads.output_step; Threads.output_step].     (* lock, wait *)

(** Where [missed_wake] leads. *)
Definition waiting_out : Threads.state Z :=
  {| Threads.queue := []; Threads.lock := None;
     Threads.mpc := Threads.M_join_playback; Threads.opc := Threads.O_wait;
     Threads.ipc := Threads.I_exited;
     Threads.output_quit := true; Threads.input_quit := true;
     Threads.played := []; Threads.pushed := [];
     Threads.shutdown :=
       [Threads.StopCapture; Threads.JoinCapture; Threads.StopPlayback;
        Threads.WakePlayback];
     Threads.kind := Threads.Speex;
     Threads.held := Threads.acquired Threads.Speex |}.

(** Where the timeout of the wait and the remaining statements lead
    from there. *)
Definition quiet_end : Threads.state Z :=
  {| Threads.queue := []; Threads.lock := None;
     Threads.mpc := Threads.M_done; Threads.opc := Threads.O_exited;
     Threads.ipc := Threads.I_exited;
     Threads.output_quit := true; Threads.input_quit := true;
     Threads.played := []; Threads.pushed := [];
     Threads.shutdown := Threads.shutdown_order;
     Threads.kind := Threads.Speex;
     Threads.held := [Threads.CliSocket; Threads.SrvSocket] |}.

(** A setup in which every call succeeds. *)
Definition smooth : Codec.setup_env :=
  {| Codec.se_default_driver := 2; Codec.se_device := true;
     Codec.se_cli_getaddrinfo := 0; Codec.se_cli_addrs := [true];
     Codec.se_srv_getaddrinfo := 0; Codec.se_srv_addrs := [Codec.Bound];
     Codec.se_playback_create := 0; Codec.se_nonblocking_fd := true;
     Codec.se_nonblocking_sock := true;
     Codec.se_capture_create := 0;
     Codec.se_signal_int := true; Codec.se_signal_usr1 := true |}.


Definition running : Raw.output_env :=
  {| Raw.oe_tv_sec := 1000; Raw.oe_tv_usec := 250;
     Raw.oe_rc := 0; Raw.oe_arrived := [];
     Raw.oe_verbose := false; Raw.oe_quit := false |}.

End Sample.

(** * Properties *)

(** ** Bytes and machine integers *)

Lemma to_u32_range z : 0 <= to_u32 z < 2 ^ 32.
Proof. unfold to_u32. apply Z.mod_pos_bound. lia. Qed.

Lemma to_int_id z : INT_MIN <= z <= INT_MAX -> to_int z = z.
Proof.
  unfold to_int, INT_MIN, INT_MAX. intros Hz.
  rewrite Z.mod_small by lia. lia.
Qed.

Lemma to_int_to_u32 z : to_int (to_u32 z) = to_int z.
Proof.
  unfold to_int, to_u32.
  rewrite Zplus_mod_idemp_l. reflexivity.
Qed.

Lemma to_u32_to_int z : to_u32 (to_int z) = to_u32 z.
Proof.
  unfold to_int, to_u32.
  rewrite <- Zminus_mod_idemp_l, Z.mod_mod by lia.
  rewrite Zminus_mod_idemp_l. f_equal. lia.
Qed.

Lemma store32_length h v : length (store32 h v) = 4%nat.
Proof.
  unfold store32. destruct (endian h); rewrite ?length_rev; apply length_le_split.
Qed.

Lemma load32_store32 h v : load32 h (store32 h v) = to_u32 v.
Proof.
  unfold load32, store32, to_u32.
  destruct (endian h); rewrite ?rev_involutive, le_combine_split; reflexivity.
Qed.

(** ** Framing *)

Lemma store32_htonl_sig h : store32 h (htonl h 0xcafebabe) = sig_on_wire.
Proof. unfold store32, htonl. destruct (endian h); reflexivity. Qed.

Lemma frame_unfold h ts payload :
  Codec.frame h ts payload = sig_on_wire ++ store32 h (to_u32 ts) ++ payload.
Proof. unfold Codec.frame. now rewrite store32_htonl_sig. Qed.

Lemma frame_length h ts payload :
  length (Codec.frame h ts payload) = (8 + length payload)%nat.
Proof.
  rewrite frame_unfold, !length_app, store32_length. reflexivity.
Qed.

Lemma memcpy_from_app (pre mid post : list byte) (off n : Z) :
  off = Z.of_nat (length pre) -> n = Z.of_nat (length mid) ->
  memcpy_from (pre ++ mid ++ post) off n = Some mid.
Proof.
  intros -> ->. unfold memcpy_from.
  rewrite !length_app, !Nat2Z.id.
  replace (_ && _ && _) with true.
  - rewrite drop_app_length, take_app_length. reflexivity.
  - symmetry. rewrite !andb_true_iff, !Z.leb_le. lia.
Qed.

Lemma hdr_timestamp_frame h ts payload rest :
  Codec.hdr_timestamp h (Codec.frame h ts payload ++ rest) = Some (to_u32 ts).
Proof.
  unfold Codec.hdr_timestamp. rewrite frame_unfold.
  rewrite <- !app_assoc.
  rewrite (memcpy_from_app sig_on_wire (store32 h (to_u32 ts)) (payload ++ rest))
    by (rewrite ?store32_length; reflexivity).
  simpl. rewrite load32_store32. f_equal. unfold to_u32. apply Z.mod_mod. lia.
Qed.

Lemma payload_of_frame h ts payload rest :
  memcpy_from (Codec.frame h ts payload ++ rest) sizeof_hdr
    (Z.of_nat (length payload)) = Some payload.
Proof.
  rewrite frame_unfold.
  replace ((sig_on_wire ++ store32 h (to_u32 ts) ++ payload) ++ rest)
    with ((sig_on_wire ++ store32 h (to_u32 ts)) ++ payload ++ rest)
    by (now rewrite <- !app_assoc).
  apply memcpy_from_app; [|reflexivity].
  rewrite length_app, store32_length. reflexivity.
Qed.

Lemma recvfrom_fits mem d :
  (length d <= length mem)%nat ->
  Codec.recvfrom mem d = (d ++ drop (length d) mem, Z.of_nat (length d)).
Proof.
  intros Hle. unfold Codec.recvfrom. now rewrite take_ge by lia.
Qed.

Lemma speex_bits_write_length bits n :
  0 <= n -> Z.of_nat (length (Codec.speex_bits_write bits n)) <= n.
Proof.
  intros Hn. unfold Codec.speex_bits_write. rewrite length_take. lia.
Qed.

(** C4.  Framing round trip: whatever frame the capture loop hands to
    [sendto] for a payload of [L <= 1492] bytes and a timestamp [T] is
    the 4 signature bytes, the 4 timestamp bytes and the payload, of
    length [L + 8]; the receive side, given that datagram by [recvfrom],
    puts exactly the payload, its length [L] and the timestamp [T] into
    the jitter buffer and queues the same payload. *)
Theorem framing_round_trip (h : host) (e : Codec.capture_env) (T : Z)
    (mem : list byte) (s : Codec.shared) :
  let payload :=
    Codec.speex_bits_write (Codec.ce_bits e) (COMPRESSED_BUF_SIZE - sizeof_hdr) in
  let L := Z.of_nat (length payload) in
  INT_MIN <= T <= INT_MAX ->
  0 < Codec.ce_inbytes e ->
  Z.of_nat (length mem) = COMPRESSED_BUF_SIZE ->
  malloc_ok h sizeof_entry = true ->
  malloc_ok h L = true ->
  exists datagram n warned,
    snd (Codec.capture_body h T e) = Codec.Sendto datagram n :: warned /\
    datagram = sig_on_wire ++ store32 h (to_u32 T) ++ payload /\
    n = L + sizeof_hdr /\
    Z.of_nat (length datagram) = n /\
    let '(mem', bytes) := Codec.recvfrom mem datagram in
    bytes = n /\
    Codec.process_compressed_packet h mem' bytes s =
      Done {| Codec.speex_jitter :=
                speex_jitter_put (Codec.speex_jitter s) payload L T;
              Codec.compressed_list :=
                Codec.compressed_list s
                  ++ [ {| Codec.buf := payload; Codec.len := L |} ] |}.
Proof.
  intros payload L HT Hin Hmem Hentry Hmalloc.
  pose proof (speex_bits_write_length (Codec.ce_bits e)
                (COMPRESSED_BUF_SIZE - sizeof_hdr)) as HL.
  fold payload in HL. fold L in HL.
  unfold COMPRESSED_BUF_SIZE, sizeof_hdr in HL, Hmem.
  specialize (HL ltac:(lia)).
  exists (Codec.frame h T payload), (L + sizeof_hdr).
  unfold Codec.capture_body.
  apply Z.ltb_lt in Hin. rewrite Hin. fold payload. fold L. cbn [snd].
  eexists. split; [reflexivity|].
  split; [apply frame_unfold|]. split; [reflexivity|].
  assert (Hlen : Z.of_nat (length (Codec.frame h T payload)) = L + sizeof_hdr).
  { rewrite frame_length. unfold sizeof_hdr, L. lia. }
  split; [exact Hlen|].
  rewrite recvfrom_fits by (unfold sizeof_hdr in Hlen; lia).
  split; [exact Hlen|].
  unfold Codec.process_compressed_packet.
  rewrite Hentry, Hlen. cbn [negb].
  replace (to_size_t (L + sizeof_hdr - sizeof_hdr)) with L
    by (unfold to_size_t; rewrite Z.mod_small; lia).
  rewrite Hmalloc. cbn [negb].
  unfold L at 1. rewrite payload_of_frame, hdr_timestamp_frame.
  rewrite to_int_to_u32, to_int_id by exact HT.
  unfold Codec.enqueue_for_playback, list_add_tail. reflexivity.
Qed.

(** ** The capture thread's timestamps *)

Lemma to_u32_add_to_int a b : to_u32 (to_int a + b) = to_u32 (a + b).
Proof.
  unfold to_u32. rewrite <- Zplus_mod_idemp_l.
  change (to_int a mod 2 ^ 32) with (to_u32 (to_int a)).
  rewrite to_u32_to_int. unfold to_u32. now rewrite Zplus_mod_idemp_l.
Qed.

Lemma hdr_timestamp_sent h ts payload :
  Codec.hdr_timestamp h
    (take (Z.to_nat (Z.of_nat (length payload) + sizeof_hdr))
       (Codec.frame h ts payload)) = Some (to_u32 ts).
Proof.
  rewrite take_ge by (rewrite frame_length; unfold sizeof_hdr; lia).
  rewrite <- (app_nil_r (Codec.frame h ts payload)).
  apply hdr_timestamp_frame.
Qed.

(** One turn that reads something sends the current counter and leaves
    the counter one frame further. *)
Lemma capture_body_reads h ts e :
  0 < Codec.ce_inbytes e ->
  exists d,
    Codec.sent (snd (Codec.capture_body h ts e)) = [d] /\
    Codec.hdr_timestamp h d = Some (to_u32 ts) /\
    fst (Codec.capture_body h ts e) = to_int (ts + FRAME_SIZE).
Proof.
  intros Hin. unfold Codec.capture_body.
  apply Z.ltb_lt in Hin. rewrite Hin. cbn [fst snd Codec.sent].
  eexists. split; [|split; [apply hdr_timestamp_sent|reflexivity]].
  destruct (Codec.ce_sendto e <? 0); reflexivity.
Qed.

Lemma capture_body_idle h ts e :
  Codec.ce_inbytes e <= 0 -> Codec.capture_body h ts e = (ts, []).
Proof.
  intros Hin. unfold Codec.capture_body.
  apply Z.ltb_ge in Hin. now rewrite Hin.
Qed.

Lemma sent_app evs1 evs2 :
  Codec.sent (evs1 ++ evs2) = Codec.sent evs1 ++ Codec.sent evs2.
Proof.
  induction evs1 as [|ev evs1 IH]; [reflexivity|].
  destruct ev; cbn [app Codec.sent]; rewrite IH; reflexivity.
Qed.

Lemma capture_loop_timestamps h envs : forall ts (n : nat) d,
  Codec.sent (Codec.capture_loop h ts envs) !! n = Some d ->
  Codec.hdr_timestamp h d = Some (to_u32 (ts + Z.of_nat n * FRAME_SIZE)).
Proof.
  induction envs as [|e envs IH]; intros ts n d; cbn [Codec.capture_loop].
  - cbn. discriminate.
  - destruct (Codec.ce_quit e); [cbn; discriminate|].
    destruct (Z_lt_le_dec 0 (Codec.ce_inbytes e)) as [Hin|Hin].
    + destruct (capture_body_reads h ts e Hin) as (d0 & Hsent & Hts & Hnext).
      destruct (Codec.capture_body h ts e) as [ts' evs].
      cbn [fst snd] in *. rewrite sent_app, Hsent. subst ts'.
      destruct n as [|n]; cbn [app lookup list_lookup].
      * intros [= <-]. rewrite Hts. do 2 f_equal. lia.
      * intros Hn. rewrite (IH _ _ _ Hn), to_u32_add_to_int.
        do 2 f_equal. lia.
    + rewrite capture_body_idle by exact Hin. cbn [app]. apply IH.
Qed.

(** C5 (amended).  The timestamp of the capture thread is a counter of
    samples that starts at 0: the frame handed to [sendto] after [n]
    earlier ones carries, in its 32-bit timestamp field, [n * 320]
    reduced modulo [2 ^ 32]. *)
Theorem capture_nth_timestamp (h : host) (envs : list Codec.capture_env)
    (n : nat) (d : list byte) :
  Codec.sent (Codec.capture h envs) !! n = Some d ->
  Codec.hdr_timestamp h d = Some ((Z.of_nat n * FRAME_SIZE) mod 2 ^ 32).
Proof.
  intros Hn. unfold Codec.capture in Hn.
  now rewrite (capture_loop_timestamps _ _ _ _ _ Hn).
Qed.

Lemma capture_nth_timestamp_witness :
  Codec.sent (Codec.capture Sample.x86_64 [Sample.reading; Sample.reading])
    !! 1%nat
  = Some (sig_on_wire
            ++ [Byte.x40; Byte.x01; Byte.x00; Byte.x00]
            ++ [Byte.x01; Byte.x02; Byte.x03])
  /\ Codec.hdr_timestamp Sample.x86_64
       (sig_on_wire
          ++ [Byte.x40; Byte.x01; Byte.x00; Byte.x00]
          ++ [Byte.x01; Byte.x02; Byte.x03])
     = Some ((1 * FRAME_SIZE) mod 2 ^ 32).
Proof.
  split; [reflexivity|].
  apply (capture_nth_timestamp Sample.x86_64
           [Sample.reading; Sample.reading] 1).
  reflexivity.
Defined.

Lemma sent_capture_loop_replicate h e (k : nat) : forall ts,
  Codec.ce_quit e = false -> 0 < Codec.ce_inbytes e ->
  length (Codec.sent (Codec.capture_loop h ts (replicate k e))) = k.
Proof.
  induction k as [|k IH]; intros ts Hq Hin; [reflexivity|].
  cbn [replicate Codec.capture_loop]. rewrite Hq.
  destruct (capture_body_reads h ts e Hin) as (d0 & Hsent & _ & _).
  destruct (Codec.capture_body h ts e) as [ts' evs]. cbn [snd] in Hsent.
  rewrite sent_app, Hsent, length_app, IH by assumption. reflexivity.
Qed.

(** C5 as stated fails once [n * 320] no longer fits the 32-bit field:
    after 13421773 frames the next one carries 64. *)
Lemma capture_timestamp_wraps :
  exists d,
    Codec.sent (Codec.capture Sample.x86_64
                  (replicate (Z.to_nat 13421774) Sample.reading))
      !! Z.to_nat 13421773 = Some d
    /\ Codec.hdr_timestamp Sample.x86_64 d = Some 64
    /\ 64 <> 13421773 * FRAME_SIZE.
Proof.
  remember (Z.to_nat 13421773) as n eqn:Hn.
  remember (Z.to_nat 13421774) as k eqn:Hk.
  assert (Hlt : (n < k)%nat) by (subst; apply Z2Nat.inj_lt; lia).
  assert (HnZ : Z.of_nat n = 13421773) by (subst; apply Z2Nat.id; lia).
  destruct (lookup_lt_is_Some_2
              (Codec.sent (Codec.capture Sample.x86_64
                             (replicate k Sample.reading))) n) as [d Hd].
  { unfold Codec.capture.
    rewrite sent_capture_loop_replicate by (cbn; lia || reflexivity).
    exact Hlt. }
  exists d. split; [exact Hd|]. split; [|unfold FRAME_SIZE; lia].
  rewrite (capture_loop_timestamps _ _ _ _ _ Hd), HnZ. reflexivity.
Qed.

Lemma framing_round_trip_witness :
  exists datagram n warned,
    snd (Codec.capture_body Sample.x86_64 640 Sample.reading)
      = Codec.Sendto datagram n :: warned /\
    datagram = sig_on_wire ++ store32 Sample.x86_64 (to_u32 640)
                 ++ [Byte.x01; Byte.x02; Byte.x03] /\
    n = 3 + sizeof_hdr /\
    Z.of_nat (length datagram) = n /\
    let '(mem', bytes) := Codec.recvfrom (Sample.zeroes 1500) datagram in
    bytes = n /\
    Codec.process_compressed_packet Sample.x86_64 mem' bytes Sample.fresh =
      Done {| Codec.speex_jitter :=
                speex_jitter_put (Codec.speex_jitter Sample.fresh)
                  [Byte.x01; Byte.x02; Byte.x03] 3 640;
              Codec.compressed_list :=
                Codec.compressed_list Sample.fresh
                  ++ [ {| Codec.buf := [Byte.x01; Byte.x02; Byte.x03];
                          Codec.len := 3 |} ] |}.
Proof.
  apply (framing_round_trip Sample.x86_64 Sample.reading 640
           (Sample.zeroes 1500) Sample.fresh).
  - unfold INT_MIN, INT_MAX. lia.
  - simpl. lia.
  - reflexivity.
  - reflexivity.
  - reflexivity.
Defined.

(** ** The receive loop *)

Lemma memcpy_from_app_l (src rest : list byte) (off n : Z) :
  0 <= off -> 0 <= n -> off + n <= Z.of_nat (length src) ->
  memcpy_from (src ++ rest) off n
  = Some (take (Z.to_nat n) (drop (Z.to_nat off) src)).
Proof.
  intros Hoff Hn Hfit. unfold memcpy_from.
  replace (_ && _ && _) with true.
  - rewrite drop_app_le by lia. rewrite take_app_le; [reflexivity|].
    rewrite length_drop. lia.
  - symmetry. rewrite !andb_true_iff, !Z.leb_le, length_app. lia.
Qed.

Lemma hdr_timestamp_app h (d rest : list byte) :
  (8 <= length d)%nat ->
  Codec.hdr_timestamp h (d ++ rest) = Codec.hdr_timestamp h d.
Proof.
  intros Hd. unfold Codec.hdr_timestamp.
  rewrite <- (app_nil_r d) at 2.
  rewrite !memcpy_from_app_l by lia. reflexivity.
Qed.

Lemma hdr_timestamp_is_Some h (d : list byte) :
  (8 <= length d)%nat -> is_Some (Codec.hdr_timestamp h d).
Proof.
  intros Hd. unfold Codec.hdr_timestamp.
  rewrite <- (app_nil_r d), memcpy_from_app_l by lia. cbn. eauto.
Qed.

Lemma process_compressed_packet_long h (d rest : list byte) s :
  (8 <= length d)%nat ->
  Z.of_nat (length d) <= COMPRESSED_BUF_SIZE ->
  malloc_ok h sizeof_entry = true ->
  malloc_ok h (Z.of_nat (length d) - sizeof_hdr) = true ->
  exists ts,
    Codec.hdr_timestamp h d = Some ts /\
    Codec.process_compressed_packet h (d ++ rest) (Z.of_nat (length d)) s
    = Done (Codec.routed s (drop 8 d) (to_int ts)).
Proof.
  intros Hd Hfit Hentry Hmalloc.
  destruct (hdr_timestamp_is_Some h d Hd) as [ts Hts].
  exists ts. split; [exact Hts|].
  unfold Codec.process_compressed_packet, sizeof_hdr, COMPRESSED_BUF_SIZE in *.
  rewrite Hentry. cbn [negb].
  replace (to_size_t (Z.of_nat (length d) - 8)) with (Z.of_nat (length d) - 8)
    by (unfold to_size_t; rewrite Z.mod_small; lia).
  rewrite Hmalloc. cbn [negb].
  rewrite memcpy_from_app_l by lia.
  rewrite hdr_timestamp_app, Hts by exact Hd.
  replace (Z.to_nat 8) with 8%nat by reflexivity.
  rewrite take_ge by (rewrite length_drop; lia).
  unfold Codec.routed, Codec.enqueue_for_playback, list_add_tail. cbn.
  rewrite length_drop.
  replace (Z.of_nat (length d - 8)) with (Z.of_nat (length d) - 8) by lia.
  reflexivity.
Qed.

(** C1 (amended).  The receive loop does not look at the signature: a
    pending datagram of at least 8 and at most 1500 bytes is routed
    whatever its first four bytes are.  Its bytes from offset 8 on go
    into the jitter buffer under the timestamp read from bytes 4 to 7
    and into a new entry at the tail of the playback queue. *)
Theorem datagram_routed_unchecked (h : host) (e : Codec.main_env)
    (mem : list byte) (s : Codec.shared) (d : list byte) :
  Codec.me_sigint e = false ->
  Codec.me_datagram e = Some d ->
  Z.of_nat (length mem) = COMPRESSED_BUF_SIZE ->
  sizeof_hdr <= Z.of_nat (length d) <= COMPRESSED_BUF_SIZE ->
  malloc_ok h sizeof_entry = true ->
  malloc_ok h (Z.of_nat (length d) - sizeof_hdr) = true ->
  exists ts evs,
    Codec.hdr_timestamp h d = Some ts /\
    Codec.main_body h e mem s
    = Codec.Turned (d ++ drop (length d) mem)
        (Codec.routed s (drop 8 d) (to_int ts)) evs.
Proof.
  intros Hsig Hd Hmem Hlen Hentry Hmalloc.
  unfold sizeof_hdr, COMPRESSED_BUF_SIZE in Hlen, Hmem.
  destruct (process_compressed_packet_long h d (drop (length d) mem) s)
    as (ts & Hts & Hproc);
    [lia|unfold COMPRESSED_BUF_SIZE; lia|exact Hentry|exact Hmalloc|].
  exists ts. unfold Codec.main_body. rewrite Hsig, Hd.
  rewrite recvfrom_fits by lia.
  replace (0 <? Z.of_nat (length d)) with true by (symmetry; apply Z.ltb_lt; lia).
  rewrite Hproc. eexists. split; [exact Hts|reflexivity].
Qed.

(** What the missing length check costs: a datagram of 1 to 7 bytes
    makes [len - sizeof hdr] wrap around; the process ends in
    [err (1, "malloc")] or reads beyond the receive buffer.  Either way
    the datagram is not passed over. *)
Lemma short_datagram_stops_the_process (h : host) (e : Codec.main_env)
    (mem : list byte) (s : Codec.shared) (d : list byte) :
  Codec.me_sigint e = false ->
  Codec.me_datagram e = Some d ->
  Z.of_nat (length mem) = COMPRESSED_BUF_SIZE ->
  0 < Z.of_nat (length d) < sizeof_hdr ->
  exists evs,
    Codec.main_body h e mem s = Codec.Died 1 "malloc" evs \/
    Codec.main_body h e mem s = Codec.Faulted evs.
Proof.
  intros Hsig Hd Hmem Hlen.
  unfold sizeof_hdr, COMPRESSED_BUF_SIZE in Hlen, Hmem.
  unfold Codec.main_body. rewrite Hsig, Hd, recvfrom_fits by lia.
  replace (0 <? Z.of_nat (length d)) with true by (symmetry; apply Z.ltb_lt; lia).
  eexists. unfold Codec.process_compressed_packet.
  destruct (malloc_ok h sizeof_entry); cbn [negb]; [|left; reflexivity].
  destruct (malloc_ok h _); cbn [negb]; [|left; reflexivity].
  right.
  replace (memcpy_from _ _ _) with (@None (list byte)); [reflexivity|].
  symmetry. unfold memcpy_from, sizeof_hdr, to_size_t.
  replace ((Z.of_nat (length d) - 8) mod 2 ^ 64)
    with (2 ^ 64 + Z.of_nat (length d) - 8)
    by (apply Z.mod_unique with (q := -1); lia).
  rewrite length_app, length_drop.
  replace (_ && _ && _) with false; [reflexivity|].
  symmetry. rewrite !andb_false_iff, !Z.leb_gt. lia.
Qed.

Lemma datagram_routed_unchecked_witness :
  exists ts evs,
    Codec.hdr_timestamp Sample.x86_64 Sample.stray = Some ts /\
    Codec.main_body Sample.x86_64 (Sample.receiving Sample.stray)
      (Sample.zeroes 1500) Sample.fresh
    = Codec.Turned (Sample.stray ++ drop (length Sample.stray) (Sample.zeroes 1500))
        (Codec.routed Sample.fresh (drop 8 Sample.stray) (to_int ts)) evs.
Proof.
  apply (datagram_routed_unchecked Sample.x86_64
           (Sample.receiving Sample.stray) (Sample.zeroes 1500)
           Sample.fresh Sample.stray).
  - reflexivity.
  - reflexivity.
  - reflexivity.
  - unfold sizeof_hdr, COMPRESSED_BUF_SIZE. simpl. lia.
  - reflexivity.
  - reflexivity.
Defined.

(** C1 as stated fails: a datagram whose signature field is DE AD BE EF
    reaches both the jitter buffer and the playback queue. *)
Lemma stray_datagram_is_routed :
  Codec.hdr_sig Sample.x86_64 Sample.stray
    <> Some (htonl Sample.x86_64 0xcafebabe)
  /\ exists mem s,
       Codec.main_body Sample.x86_64 (Sample.receiving Sample.stray)
         (Sample.zeroes 1500) Sample.fresh = Codec.Turned mem s []
       /\ Codec.compressed_list s
          = [ {| Codec.buf := [Byte.x07]; Codec.len := 1 |} ]
       /\ jitter_frames (Codec.speex_jitter s) !! 320 = Some [Byte.x07].
Proof.
  split; [vm_compute; discriminate|].
  eexists _, _. split; [reflexivity|]. split; reflexivity.
Qed.

(** ** The playback queue of the raw variant *)

Lemma do_output_pcm_appends h mem len l :
  malloc_ok h sizeof_entry = true ->
  malloc_ok h len = true ->
  0 <= len <= Z.of_nat (length mem) ->
  Raw.do_output_pcm h mem len l
  = Done (l ++ [ {| Raw.buf := take (Z.to_nat len) mem; Raw.len := len |} ]).
Proof.
  intros Hentry Hblock Hlen. unfold Raw.do_output_pcm.
  rewrite Hentry, Hblock. cbn [negb].
  rewrite <- (app_nil_r mem) at 1.
  rewrite memcpy_from_app_l by lia. reflexivity.
Qed.

Lemma pushes_append h calls : forall l,
  malloc_ok h sizeof_entry = true ->
  Forall (fun call => 0 <= snd call <= Z.of_nat (length (fst call))
                      /\ malloc_ok h (snd call) = true) calls ->
  Raw.pushes h calls l = Done (l ++ map Raw.pushed calls).
Proof.
  induction calls as [|[mem len] calls IH]; intros l Hentry Hcalls.
  - cbn. now rewrite app_nil_r.
  - apply Forall_cons in Hcalls as [[Hlen Hblock] Hcalls]. cbn in Hlen, Hblock.
    cbn [Raw.pushes]. rewrite do_output_pcm_appends by assumption.
    rewrite IH by assumption. rewrite <- app_assoc. reflexivity.
Qed.

Lemma raw_plays_app evs1 evs2 :
  Raw.plays (evs1 ++ evs2) = Raw.plays evs1 ++ Raw.plays evs2.
Proof.
  induction evs1 as [|ev evs1 IH]; [reflexivity|].
  destruct ev; cbn [app Raw.plays]; rewrite IH; reflexivity.
Qed.

Lemma raw_plays_dequeue l :
  Raw.plays (Raw.dequeue l) = map (fun pctx => (Raw.buf pctx, Raw.len pctx)) l.
Proof.
  induction l as [|pctx l IH]; [reflexivity|].
  cbn [Raw.dequeue Raw.plays map]. now rewrite IH.
Qed.

(** C3.  The playback queue is FIFO: after any run of pushes with no
    dequeueing in between, the next turn of the output thread plays
    what was queued before, then the pushed blocks in the order of the
    pushes, each with its own length, and leaves the queue empty. *)
Theorem playback_queue_fifo (h : host) (calls : list (list byte * Z))
    (l : list Raw.pcm_buf) (e : Raw.output_env) :
  malloc_ok h sizeof_entry = true ->
  Forall (fun call => 0 <= snd call <= Z.of_nat (length (fst call))
                      /\ malloc_ok h (snd call) = true) calls ->
  calls <> [] ->
  Raw.oe_quit e = false ->
  exists l' evs,
    Raw.pushes h calls l = Done l' /\
    l' = l ++ map Raw.pushed calls /\
    Raw.output_pcm_body e l' = Raw.Played [] evs /\
    Raw.plays evs
    = map (fun pctx => (Raw.buf pctx, Raw.len pctx)) l
      ++ map (fun call => (take (Z.to_nat (snd call)) (fst call), snd call))
           calls.
Proof.
  intros Hentry Hcalls Hne Hquit.
  exists (l ++ map Raw.pushed calls), (Raw.dequeue (l ++ map Raw.pushed calls)).
  split; [now apply pushes_append|]. split; [reflexivity|].
  split.
  - unfold Raw.output_pcm_body, Raw.output_wait.
    destruct (l ++ map Raw.pushed calls) as [|pctx rest] eqn:Hl.
    + apply app_eq_nil in Hl as [_ Hmap].
      destruct calls; [congruence|discriminate].
    + cbn [list_empty]. now rewrite Hquit.
  - rewrite raw_plays_dequeue, map_app, map_map. reflexivity.
Qed.

Lemma playback_queue_fifo_witness :
  exists l' evs,
    Raw.pushes Sample.x86_64
      [([Byte.x0a; Byte.x0b], 2); ([Byte.x0c], 1); ([Byte.x0d; Byte.x0e], 1)]
      [] = Done l' /\
    l' = [] ++ map Raw.pushed
           [([Byte.x0a; Byte.x0b], 2); ([Byte.x0c], 1);
            ([Byte.x0d; Byte.x0e], 1)] /\
    Raw.output_pcm_body Sample.running l' = Raw.Played [] evs /\
    Raw.plays evs
    = map (fun pctx => (Raw.buf pctx, Raw.len pctx)) []
      ++ map (fun call => (take (Z.to_nat (snd call)) (fst call), snd call))
           [([Byte.x0a; Byte.x0b], 2); ([Byte.x0c], 1);
            ([Byte.x0d; Byte.x0e], 1)].
Proof.
  apply (playback_queue_fifo Sample.x86_64
           [([Byte.x0a; Byte.x0b], 2); ([Byte.x0c], 1);
            ([Byte.x0d; Byte.x0e], 1)] [] Sample.running).
  - reflexivity.
  - repeat constructor; cbn; lia.
  - discriminate.
  - reflexivity.
Defined.

(** ** The playback thread of the codec variant *)

Lemma one_frame_length samples :
  Z.of_nat (length (one_frame samples)) = FRAME_SIZE.
Proof.
  unfold one_frame. rewrite length_take, length_app, length_replicate.
  unfold FRAME_SIZE. lia.
Qed.

Lemma codec_plays_app evs1 evs2 :
  Codec.plays (evs1 ++ evs2) = Codec.plays evs1 ++ Codec.plays evs2.
Proof.
  induction evs1 as [|ev evs1 IH]; [reflexivity|].
  destruct ev; cbn [app Codec.plays]; rewrite IH; reflexivity.
Qed.


Lemma playback_wait_quiet e s :
  Codec.plays (snd (Codec.playback_wait e s)) = [] /\
  Codec.gets (snd (Codec.playback_wait e s)) = 0%nat.
Proof.
  unfold Codec.playback_wait.
  destruct (list_empty _); [|split; reflexivity].
  destruct (Codec.pe_rc e =? ETIMEDOUT), (Codec.pe_verbose e);
    split; reflexivity.
Qed.

Lemma dequeue_plays entries : forall j,
  length (Codec.plays (snd (Codec.dequeue entries j))) = length entries /\
  Forall (fun w => Z.of_nat (length (fst w)) = FRAME_SIZE /\ snd w = 640)
    (Codec.plays (snd (Codec.dequeue entries j))).
Proof.
  induction entries as [|cbuf entries IH]; intros j; cbn [Codec.dequeue].
  - split; [reflexivity|constructor].
  - destruct (speex_jitter_get j) as [j1 pcm] eqn:Hget.
    specialize (IH j1). destruct (Codec.dequeue entries j1) as [j2 evs].
    cbn [snd Codec.plays length] in *. destruct IH as [IHlen IHall].
    split; [now rewrite IHlen|]. constructor; [|exact IHall].
    unfold speex_jitter_get in Hget. injection Hget as _ <-.
    split; [apply one_frame_length|reflexivity].
Qed.

Lemma dequeue_gets entries : forall j,
  Codec.gets (snd (Codec.dequeue entries j)) = length entries.
Proof.
  induction entries as [|cbuf entries IH]; intros j; cbn [Codec.dequeue].
  - reflexivity.
  - destruct (speex_jitter_get j) as [j1 pcm].
    specialize (IH j1). destruct (Codec.dequeue entries j1) as [j2 evs].
    cbn [snd Codec.gets] in *. now rewrite IH.
Qed.

Lemma dequeue_cursor entries : forall j,
  jitter_cursor (fst (Codec.dequeue entries j))
  = jitter_cursor j + FRAME_SIZE * Z.of_nat (length entries).
Proof.
  induction entries as [|cbuf entries IH]; intros j; cbn [Codec.dequeue].
  - cbn. lia.
  - destruct (speex_jitter_get j) as [j1 pcm] eqn:Hget.
    specialize (IH j1). destruct (Codec.dequeue entries j1) as [j2 evs].
    cbn [fst length] in *. rewrite IH.
    unfold speex_jitter_get in Hget. injection Hget as <- _. cbn. lia.
Qed.


Lemma arrive_list arrived : forall s,
  Codec.compressed_list (Codec.arrive s arrived)
  = Codec.compressed_list s
    ++ map (fun p => {| Codec.buf := fst p;
                        Codec.len := Z.of_nat (length (fst p)) |}) arrived.
Proof.
  unfold Codec.arrive.
  induction arrived as [|p arrived IH]; intros s; cbn [fold_left map].
  - now rewrite app_nil_r.
  - rewrite IH. cbn [Codec.routed Codec.enqueue_for_playback
                       Codec.compressed_list list_add_tail].
    unfold Codec.routed, Codec.enqueue_for_playback, list_add_tail.
    cbn [Codec.compressed_list]. now rewrite <- app_assoc.
Qed.







(** ** The timed wait *)

(** C7.  In both variants a turn of the playback loop that finds the
    queue empty waits on the condition variable until three seconds
    after the time read; when the wait times out the only effect is the
    diagnostic, printed in verbose mode; after the wait the quit flag
    decides between leaving and dequeueing what has arrived meanwhile.
    A turn that finds the queue filled does not wait. *)
Theorem starving_wait_is_no_error :
  (forall e : Raw.output_env,
     let wait := Raw.CondTimedwait (Raw.oe_tv_sec e + 3) (Raw.oe_tv_usec e * 1000) in
     let diag :=
       if (Raw.oe_rc e =? ETIMEDOUT) && Raw.oe_verbose e
       then [Raw.Printf "Output thread is starving..."] else [] in
     let woken := [] ++ Raw.oe_arrived e in
     Raw.output_pcm_body e []
     = if Raw.oe_quit e then Raw.Quit woken (wait :: diag)
       else Raw.Played [] (wait :: diag ++ Raw.dequeue woken)) /\
  (forall (e : Raw.output_env) pctx l,
     Raw.output_pcm_body e (pctx :: l)
     = if Raw.oe_quit e then Raw.Quit (pctx :: l) []
       else Raw.Played [] (Raw.dequeue (pctx :: l))) /\
  (forall (e : Codec.playback_env) j,
     let s := {| Codec.speex_jitter := j; Codec.compressed_list := [] |} in
     let wait :=
       Codec.CondTimedwait (Codec.pe_tv_sec e + 3) (Codec.pe_tv_usec e * 1000) in
     let diag :=
       if (Codec.pe_rc e =? ETIMEDOUT) && Codec.pe_verbose e
       then [Codec.Printf "Output thread is starving..."] else [] in
     let woken := Codec.arrive s (Codec.pe_arrived e) in
     Codec.playback_body e s
     = if Codec.pe_quit e then Codec.Quit woken (wait :: diag)
       else Codec.Played
              {| Codec.speex_jitter :=
                   fst (Codec.dequeue (Codec.compressed_list woken)
                          (Codec.speex_jitter woken));
                 Codec.compressed_list := [] |}
              (wait :: diag
                 ++ snd (Codec.dequeue (Codec.compressed_list woken)
                           (Codec.speex_jitter woken)))) /\
  (forall (e : Codec.playback_env) j cbuf l,
     let s := {| Codec.speex_jitter := j;
                 Codec.compressed_list := cbuf :: l |} in
     Codec.playback_body e s
     = if Codec.pe_quit e then Codec.Quit s []
       else Codec.Played
              {| Codec.speex_jitter :=
                   fst (Codec.dequeue (cbuf :: l) (Codec.speex_jitter s));
                 Codec.compressed_list := [] |}
              (snd (Codec.dequeue (cbuf :: l) (Codec.speex_jitter s)))).
Proof.
  split; [|split; [|split]].
  - intros e wait diag woken. unfold Raw.output_pcm_body, Raw.output_wait.
    cbn [list_empty].
    assert (Hw : fold_left (fun l pctx => list_add_tail pctx l)
                   (Raw.oe_arrived e) [] = woken).
    { subst woken. generalize (@nil Raw.pcm_buf).
      induction (Raw.oe_arrived e) as [|p ps IH]; intros l; cbn.
      - now rewrite app_nil_r.
      - rewrite IH. unfold list_add_tail. now rewrite <- app_assoc. }
    rewrite Hw. subst diag.
    destruct (Raw.oe_rc e =? ETIMEDOUT), (Raw.oe_verbose e), (Raw.oe_quit e);
      reflexivity.
  - intros e pctx l. unfold Raw.output_pcm_body, Raw.output_wait.
    cbn [list_empty]. destruct (Raw.oe_quit e); reflexivity.
  - intros e j s wait diag woken.
    unfold Codec.playback_body, Codec.playback_wait.
    cbn [list_empty Codec.compressed_list s]. fold woken. subst diag.
    destruct (Codec.dequeue _ _) as [j2 evs2].
    destruct (Codec.pe_rc e =? ETIMEDOUT), (Codec.pe_verbose e),
      (Codec.pe_quit e); reflexivity.
  - intros e j cbuf l s.
    unfold Codec.playback_body, Codec.playback_wait.
    cbn [list_empty Codec.compressed_list Codec.speex_jitter s].
    destruct (Codec.dequeue _ _) as [j2 evs2].
    destruct (Codec.pe_quit e); reflexivity.
Qed.

(** ** The channel count *)

Lemma parse_options_fchan opts : forall f0 f,
  Codec.parse_options opts f0 = Done f ->
  Codec.fchan f = match Codec.channel_option opts with
                  | Some arg => to_int arg
                  | None => Codec.fchan f0
                  end.
Proof.
  induction opts as [|o opts IH]; intros f0 f Hparse.
  - cbn in *. now injection Hparse as <-.
  - destruct o; cbn [Codec.parse_options Codec.channel_option] in *;
      try discriminate;
      try (rewrite (IH _ _ Hparse); destruct (Codec.channel_option opts);
           reflexivity).
Qed.

Lemma after_channel_check_opens env bits rate chan devid verbose :
  exists dev rest o,
    Codec.after_channel_check env bits rate chan devid verbose
    = (Codec.AoOpenLive dev rate bits chan :: rest, o).
Proof.
  unfold Codec.after_channel_check.
  destruct (Codec.socket_loop _) as [cli p0].
  destruct (Codec.bind_loop _) as [srv p1].
  repeat match goal with
         | |- context [if ?c then _ else _] => destruct c
         end; cbn [app]; eauto.
Qed.

(** C8 (amended).  When the options are read through and three
    arguments are left, the codec variant decides on the channel count
    as stored in the [int] variable: any value other than 0 and 1 ends
    the process with status 1 and the diagnostic before the device is
    opened or a thread created; 0, which is also what the variable holds
    when the option is not given, is replaced by 1 and accepted like 1:
    the device is opened with one channel. *)
Theorem non_mono_rejected (env : Codec.setup_env)
    (opts : list Codec.cli_option) (f : Codec.flags) :
  Codec.parse_options opts Codec.no_flags = Done f ->
  let chan := match Codec.channel_option opts with
              | Some arg => to_int arg
              | None => 0
              end in
  if (chan =? 0) || (chan =? 1) then
    exists dev rate bits rest o,
      Codec.main_setup env opts 3
      = (Codec.AoOpenLive dev rate bits 1 :: rest, o)
  else
    Codec.main_setup env opts 3
    = ([], Exit 1 "Unsupported number of channels: %d").
Proof.
  intros Hparse chan.
  pose proof (parse_options_fchan opts _ _ Hparse) as Hchan.
  cbn [Codec.fchan Codec.no_flags] in Hchan. fold chan in Hchan.
  unfold Codec.main_setup. rewrite Hparse, Hchan. cbn [negb Z.eqb].
  destruct (chan =? 0) eqn:H0; cbn [orb].
  - destruct (after_channel_check_opens env
                (if Codec.fbits f =? 0 then 16 else Codec.fbits f)
                (if Codec.frate f =? 0 then 16000 else Codec.frate f)
                1 (Codec.fdevid f) (Codec.fverbose f))
      as (dev & rest & o & ->).
    eauto 6.
  - destruct (chan =? 1) eqn:H1; cbn [negb]; [|reflexivity].
    apply Z.eqb_eq in H1. rewrite H1.
    destruct (after_channel_check_opens env
                (if Codec.fbits f =? 0 then 16 else Codec.fbits f)
                (if Codec.frate f =? 0 then 16000 else Codec.frate f)
                1 (Codec.fdevid f) (Codec.fverbose f))
      as (dev & rest & o & ->).
    eauto 6.
Qed.

Lemma non_mono_rejected_witness :
  Codec.main_setup Sample.smooth [Codec.opt_v; Codec.opt_c 2] 3
  = ([], Exit 1 "Unsupported number of channels: %d").
Proof.
  apply (non_mono_rejected Sample.smooth [Codec.opt_v; Codec.opt_c 2]
           {| Codec.fbits := 0; Codec.frate := 0; Codec.fchan := 2;
              Codec.fdevid := 0; Codec.fverbose := true |}).
  reflexivity.
Defined.

(** C8 as stated fails: with the channel-count option set to 0, a value
    other than 1, the setup goes through and the device is opened with
    one channel. *)
Lemma zero_channels_accepted :
  exists rest f,
    Codec.main_setup Sample.smooth [Codec.opt_c 0] 3
    = (Codec.AoOpenLive 2 16000 16 1 :: rest, Done f)
    /\ In (Codec.PthreadCreate Codec.playback_thread) rest
    /\ In (Codec.PthreadCreate Codec.capture_thread) rest.
Proof.
  eexists _, _. split; [reflexivity|]. cbn. tauto.
Qed.

(** ** The threads together *)

Section Interleaving.
Context {block : Type}.
Implicit Types (s : Threads.state block) (l : Threads.label block).

Lemma init_invariant v : Threads.invariant (Threads.init block v).
Proof.
  constructor; cbn; try reflexivity; try discriminate; try lia; congruence.
Qed.

Local Ltac close_field :=
  cbn in *; subst;
  try match goal with
      | H : ?p = ?q ++ ?x :: ?r |- ?p = (?q ++ [?x]) ++ ?r =>
          rewrite H, <- app_assoc; reflexivity
      | H : ?p = ?q ++ ?r |- ?p ++ [?x] = ?q ++ ?r ++ [?x] =>
          rewrite H, <- app_assoc; reflexivity
      | H : ?sh = _ |- ?sh ++ _ = _ => rewrite H; reflexivity
      end;
  try reflexivity; try discriminate; try lia; try congruence;
  try (rewrite <- !app_assoc; reflexivity);
  try (intros; exfalso; lia);
  try (intros; exfalso;
       match goal with
       | H : (_ <= _)%nat -> _ = _ |- _ =>
           let E := fresh in
           assert (E := H ltac:(lia)); discriminate E
       end);
  auto.

Lemma step_invariant s l s' :
  Threads.invariant s -> Threads.step s l = Some s' -> Threads.invariant s'.
Proof.
  intros [Hlock Hexcl Hwake Hfifo Hlog Hiq Hoq Hcj Hpj Hie Hoe Hheld] Hstep.
  destruct s as [q lk mpc opc ipc oq iq pl pu sh kd hd].
  cbn [Threads.queue Threads.lock Threads.mpc Threads.opc Threads.ipc
       Threads.output_quit Threads.input_quit Threads.played Threads.pushed
       Threads.shutdown Threads.kind Threads.held] in *.
  destruct l; cbn [Threads.step] in Hstep.
  - (* main_receives *)
    destruct mpc; try discriminate. injection Hstep as <-.
    constructor; close_field.
    intros Ho Hq. specialize (Hwake Ho Hq). discriminate.
  - (* main_sigint *)
    destruct mpc; try discriminate. injection Hstep as <-.
    constructor; close_field.
    intros Ho Hq. specialize (Hwake Ho Hq). discriminate.
  - (* main_step *)
    unfold Threads.main_next, Threads.acquire, Threads.cond_signal in Hstep.
    cbn [Threads.queue Threads.lock Threads.mpc Threads.opc Threads.ipc
         Threads.output_quit Threads.input_quit Threads.played
         Threads.pushed Threads.shutdown Threads.kind Threads.held] in Hstep.
    destruct mpc; destruct opc; destruct lk as [[]|]; destruct ipc;
      cbn in Hstep, Hlock, Hexcl; try discriminate;
      injection Hstep as <-;
      constructor; close_field;
      try (intros Ho Hq; specialize (Hwake Ho Hq); discriminate);
      try (intros _ Hq; destruct q; [congruence|discriminate]).
  - (* output_step *)
    unfold Threads.output_next, Threads.acquire in Hstep.
    cbn [Threads.queue Threads.lock Threads.mpc Threads.opc Threads.ipc
         Threads.output_quit Threads.input_quit Threads.played
         Threads.pushed Threads.shutdown Threads.kind Threads.held] in Hstep.
    destruct opc; destruct lk as [[]|]; destruct q as [|b q];
      destruct oq; cbn in Hstep, Hlock, Hexcl; try discriminate;
      injection Hstep as <-;
      destruct mpc; cbn in Hlock, Hexcl; try discriminate;
      constructor; close_field.
  - (* output_timeout *)
    destruct opc; try discriminate. injection Hstep as <-.
    constructor; close_field.
  - (* input_step *)
    unfold Threads.input_next in Hstep.
    cbn [Threads.ipc Threads.input_quit] in Hstep.
    destruct ipc; try discriminate. injection Hstep as <-.
    destruct iq; constructor; close_field.
Qed.

Lemma run_invariant ls : forall s s',
  Threads.invariant s -> Threads.run s ls = Some s' -> Threads.invariant s'.
Proof.
  induction ls as [|l ls IH]; intros s s' Hinv Hrun; cbn in Hrun.
  - now injection Hrun as <-.
  - destruct (Threads.step s l) as [s1|] eqn:Hstep; [|discriminate].
    eapply IH; [|exact Hrun]. eapply step_invariant; eassumption.
Qed.

Lemma reachable_invariant s : Threads.reachable s -> Threads.invariant s.
Proof.
  intros (v & ls & Hrun).
  eapply run_invariant; [apply init_invariant|exact Hrun].
Qed.

Lemma run_app ls1 : forall ls2 s,
  Threads.run s (ls1 ++ ls2)
  = match Threads.run s ls1 with
    | Some s1 => Threads.run s1 ls2
    | None => None
    end.
Proof.
  induction ls1 as [|l ls1 IH]; intros ls2 s; cbn; [reflexivity|].
  destruct (Threads.step s l); [apply IH|reflexivity].
Qed.

(** The main thread can always leave the critical section of a push. *)
Lemma push_completes s :
  Threads.invariant s -> Threads.output_quit s = false ->
  exists (n : nat) s1,
    Threads.run s (replicate n Threads.main_step) = Some s1 /\
    Threads.main_holds (Threads.mpc s1) = false /\
    Threads.output_quit s1 = false /\
    Threads.pushed s `prefix_of` Threads.pushed s1.
Proof.
  intros [Hlock Hexcl Hwake Hfifo Hlog Hiq Hoq Hcj Hpj Hie Hoe Hheld] Hquit.
  destruct s as [q lk mpc opc ipc oq iq pl pu sh kd hd]. cbn in *. subst oq.
  destruct mpc; cbn in *; try discriminate;
    try (exists 0%nat; eexists; cbn;
         split; [reflexivity|]; split; [reflexivity|];
         split; [reflexivity|]; exists []; now rewrite app_nil_r).
  - (* before [list_add_tail] *)
    exists 3%nat. destruct opc; eexists; cbn;
      (split; [reflexivity|]; split; [reflexivity|]; split; [reflexivity|]);
      now exists [b].
  - (* before the signal *)
    exists 2%nat. destruct opc; eexists; cbn;
      (split; [reflexivity|]; split; [reflexivity|]; split; [reflexivity|]);
      exists []; now rewrite app_nil_r.
  - (* before the unlock *)
    exists 1%nat. eexists. cbn.
    split; [reflexivity|]. split; [reflexivity|]. split; [reflexivity|].
    cbn. exists []. now rewrite app_nil_r.
Qed.

(** The dequeue loop plays the whole list. *)
Lemma dequeue_runs (q : list block) : forall s,
  Threads.opc s = Threads.O_dequeue -> Threads.queue s = q ->
  exists s',
    Threads.run s (replicate (length q) Threads.output_step) = Some s' /\
    Threads.queue s' = [] /\
    Threads.played s' = Threads.played s ++ q.
Proof.
  induction q as [|b q IH]; intros s Hpc Hq; cbn [length replicate Threads.run].
  - exists s. now rewrite app_nil_r.
  - cbn [Threads.step]. unfold Threads.output_next. rewrite Hpc, Hq.
    destruct (IH (Threads.play_head b q s) Hpc eq_refl) as (s' & Hrun & Hq' & Hpl).
    exists s'. split; [exact Hrun|]. split; [exact Hq'|].
    rewrite Hpl. cbn. now rewrite <- app_assoc.
Qed.

Lemma dequeue_from (k : nat) s s2 :
  Threads.run s (replicate k Threads.output_step) = Some s2 ->
  Threads.opc s2 = Threads.O_dequeue ->
  exists (m : nat) s',
    Threads.run s (replicate m Threads.output_step) = Some s' /\
    Threads.queue s' = [] /\
    Threads.played s' = Threads.played s2 ++ Threads.queue s2.
Proof.
  intros Hrun Hpc.
  destruct (dequeue_runs (Threads.queue s2) s2 Hpc eq_refl)
    as (s' & Hrun' & Hq & Hpl).
  exists (k + length (Threads.queue s2))%nat, s'.
  rewrite replicate_add, run_app, Hrun. auto.
Qed.

Local Ltac drain_after k :=
  let m := fresh "m" in
  let s' := fresh "s'" in
  let Hrun := fresh "Hrun" in
  let Hq := fresh "Hq" in
  let Hpl := fresh "Hpl" in
  match goal with
  | |- exists _ _, Threads.run ?s0 _ = _ /\ _ =>
      edestruct (dequeue_from k s0) as (m & s' & Hrun & Hq & Hpl);
      [reflexivity|reflexivity|]
  end;
  exists m, s'; split; [exact Hrun|]; split; [exact Hq|exact Hpl].

(** With the main thread outside its critical section and the quit flag
    clear, the playback thread gets to play everything queued by its
    own statements alone: no timeout is needed. *)
Lemma output_drains s :
  Threads.invariant s ->
  Threads.main_holds (Threads.mpc s) = false ->
  Threads.output_quit s = false ->
  exists (m : nat) s',
    Threads.run s (replicate m Threads.output_step) = Some s' /\
    Threads.queue s' = [] /\
    Threads.played s' = Threads.pushed s.
Proof.
  intros [Hlock Hexcl Hwake Hfifo Hlog Hiq Hoq Hcj Hpj Hie Hoe Hheld] Hmain Hquit.
  destruct s as [q lk mpc opc ipc oq iq pl pu sh kd hd]. cbn in *.
  rewrite Hmain in Hlock. clear Hiq Hoq Hcj Hpj Hie Hlog.
  destruct q as [|b q].
  { exists 0%nat. eexists. cbn. repeat split. now rewrite app_nil_r in Hfifo. }
  subst oq pu.
  destruct opc; cbn in Hlock; subst lk.
  - (* at the top of the loop *)
    drain_after 3%nat.
  - (* before [list_empty] *)
    drain_after 2%nat.
  - (* inside the wait: the list is empty then *)
    exfalso. specialize (Hwake eq_refl ltac:(discriminate)).
    rewrite Hwake in Hmain. discriminate.
  - (* woken *)
    drain_after 2%nat.
  - (* before the test of the quit flag *)
    drain_after 1%nat.
  - (* in the dequeue loop *)
    drain_after 0%nat.
  - (* gone *)
    specialize (Hoe eq_refl). discriminate.
Qed.

(** C9.  In every state the threads can get into: the test
    for the empty list and the link-in with its signal are made with
    the lock held, never both at a time; if the playback thread is
    inside the wait while the list is filled, the main thread holds the
    lock, its next statement is the signal, and that statement wakes
    the playback thread; every block ever pushed has been played once
    or is still queued, in the order of the pushes; and as long as the
    quit flag of the playback thread is clear, statements of the main
    thread followed by statements of the playback thread, with no
    timeout among them, lead to a state in which every block pushed so
    far has been played and the list is empty. *)
Theorem no_lost_wakeup s :
  Threads.reachable s ->
  (Threads.lock s = Some Threads.Output
   <-> Threads.output_holds (Threads.opc s) = true) /\
  (Threads.lock s = Some Threads.Main
   <-> Threads.main_holds (Threads.mpc s) = true) /\
  (Threads.opc s = Threads.O_wait -> Threads.queue s <> [] ->
   Threads.mpc s = Threads.M_signal /\
   Threads.lock s = Some Threads.Main /\
   exists s', Threads.step s Threads.main_step = Some s'
              /\ Threads.opc s' = Threads.O_woken
              /\ Threads.queue s' = Threads.queue s) /\
  Threads.pushed s = Threads.played s ++ Threads.queue s /\
  (Threads.output_quit s = false ->
   exists (n m : nat) s',
     Threads.run s (replicate n Threads.main_step
                      ++ replicate m Threads.output_step) = Some s'
     /\ Threads.queue s' = []
     /\ Threads.pushed s `prefix_of` Threads.played s').
Proof.
  intros Hreach. apply reachable_invariant in Hreach.
  pose proof Hreach as Hinv.
  destruct Hreach as [Hlock Hexcl Hwake Hfifo _ _ _ _ _ _ _ _].
  split; [|split; [|split; [|split]]]; cycle 4.
  { intros Hquit.
    destruct (push_completes s Hinv Hquit) as (n & s1 & Hrun1 & Hmain & Hq1 & Hpre).
    pose proof (run_invariant _ _ _ Hinv Hrun1) as Hinv1.
    destruct (output_drains s1 Hinv1 Hmain Hq1) as (m & s' & Hrun2 & Hq & Hpl).
    exists n, m, s'. rewrite run_app, Hrun1, Hpl. auto. }
  - rewrite Hlock. destruct (Threads.output_holds _); [easy|].
    destruct (Threads.main_holds _); easy.
  - rewrite Hlock.
    destruct (Threads.output_holds _), (Threads.main_holds _);
      cbn in Hexcl; try discriminate; easy.
  - intros Ho Hq. specialize (Hwake Ho Hq).
    split; [exact Hwake|]. rewrite Hlock, Ho, Hwake. cbn.
    split; [reflexivity|].
    unfold Threads.main_next, Threads.cond_signal. rewrite Hwake, Ho.
    eexists. split; [reflexivity|]. split; reflexivity.
  - exact Hfifo.
Qed.

(** C6 (amended).  In every state the threads can get into, the
    shutdown steps taken so far are an initial part of: capture quit
    flag set, capture thread joined, playback quit flag set, condition
    variable signalled, playback thread joined, resources given back.
    Each flag is set exactly from its step on; a join is behind the
    main thread only when the joined thread has left its loop; the
    fourth step is the signal itself, made with the lock of the list
    held, and it wakes a playback thread that is inside the wait; the
    last step finds both threads gone and gives back the device and the
    library, the codec where there is one, and the two address lists:
    what the process holds before it is all that the setup acquired,
    and after it the two sockets, which no call closes. *)
Theorem shutdown_in_order s :
  Threads.reachable s ->
  (exists n, Threads.shutdown s = take n Threads.shutdown_order) /\
  (Threads.input_quit s = true <-> Threads.StopCapture ∈ Threads.shutdown s) /\
  (Threads.output_quit s = true <-> Threads.StopPlayback ∈ Threads.shutdown s) /\
  (Threads.JoinCapture ∈ Threads.shutdown s -> Threads.ipc s = Threads.I_exited) /\
  (Threads.JoinPlayback ∈ Threads.shutdown s -> Threads.opc s = Threads.O_exited) /\
  (Threads.Release ∈ Threads.shutdown s ->
   Threads.ipc s = Threads.I_exited /\ Threads.opc s = Threads.O_exited
   /\ Threads.shutdown s = Threads.shutdown_order) /\
  (forall s',
     Threads.step s Threads.main_step = Some s' ->
     Threads.shutdown s' = Threads.shutdown s ++ [Threads.WakePlayback] ->
     Threads.lock s = Some Threads.Main /\
     Threads.queue s' = Threads.queue s /\
     Threads.opc s' = match Threads.opc s with
                      | Threads.O_wait => Threads.O_woken
                      | pc => pc
                      end) /\
  (Threads.Release ∈ Threads.shutdown s ->
   Threads.held s = [Threads.CliSocket; Threads.SrvSocket]) /\
  (Threads.Release ∉ Threads.shutdown s ->
   Threads.held s = Threads.acquired (Threads.kind s)).
Proof.
  intros Hreach. apply reachable_invariant in Hreach.
  destruct Hreach as [Hlock Hexcl _ _ Hlog Hiq Hoq Hcj Hpj _ _ Hheld].
  rewrite Hiq, Hoq, Hlog.
  split; [eauto|].
  repeat match goal with |- _ /\ _ => split end.
  1-5: destruct (Threads.mpc s); cbn in *; repeat split; intros;
    try reflexivity; try discriminate;
    try (apply Hcj; lia); try (apply Hpj; lia);
    try (rewrite !elem_of_cons; auto 10; fail);
    try (exfalso;
         match goal with
         | H : _ ∈ _ |- _ =>
             revert H; clear; rewrite ?elem_of_cons, ?elem_of_nil;
             intuition discriminate
         end).
  - (* the fourth step *)
    intros s' Hstep Hwake.
    destruct s as [q lk mpc opc ipc oq iq pl pu sh kd hd].
    cbn [Threads.step] in Hstep.
    unfold Threads.main_next, Threads.acquire, Threads.cond_signal in Hstep.
    cbn [Threads.queue Threads.lock Threads.mpc Threads.opc Threads.ipc
         Threads.output_quit Threads.shutdown] in *.
    subst sh.
    destruct mpc; destruct lk as [[]|]; cbn in Hstep, Hlock, Hexcl;
      try discriminate;
      try (destruct ipc; try discriminate);
      try (destruct opc; try discriminate);
      injection Hstep as <-; cbn in Hwake |- *;
      try discriminate Hwake; auto.
  - (* what is held after the last step *)
    intros Hrel. rewrite Hheld.
    destruct (Threads.mpc s); cbn in Hrel |- *;
      try (exfalso; revert Hrel; clear;
           rewrite ?elem_of_cons, ?elem_of_nil; intuition discriminate).
    destruct (Threads.kind s); reflexivity.
  - (* and before it *)
    intros Hrel. rewrite Hheld.
    destruct (Threads.mpc s); cbn in Hrel |- *; try reflexivity.
    exfalso. apply Hrel. rewrite !elem_of_cons. auto 10.
Qed.

End Interleaving.

Lemma no_lost_wakeup_witness :
  let s := Sample.about_to_signal in
  Threads.reachable s /\
  (Threads.lock s = Some Threads.Output
   <-> Threads.output_holds (Threads.opc s) = true) /\
  (Threads.lock s = Some Threads.Main
   <-> Threads.main_holds (Threads.mpc s) = true) /\
  (Threads.opc s = Threads.O_wait -> Threads.queue s <> [] ->
   Threads.mpc s = Threads.M_signal /\
   Threads.lock s = Some Threads.Main /\
   exists s', Threads.step s Threads.main_step = Some s'
              /\ Threads.opc s' = Threads.O_woken
              /\ Threads.queue s' = Threads.queue s) /\
  Threads.pushed s = Threads.played s ++ Threads.queue s /\
  (Threads.output_quit s = false ->
   exists (n m : nat) s',
     Threads.run s (replicate n Threads.main_step
                      ++ replicate m Threads.output_step) = Some s'
     /\ Threads.queue s' = []
     /\ Threads.pushed s `prefix_of` Threads.played s').
Proof.
  assert (Hreach : Threads.reachable Sample.about_to_signal)
    by (exists Threads.Speex, Sample.racing_push; reflexivity).
  split; [exact Hreach|].
  apply (no_lost_wakeup Sample.about_to_signal Hreach).
Defined.

Lemma shutdown_in_order_witness :
  let s := Sample.all_gone in
  Threads.reachable s /\
  (exists n, Threads.shutdown s = take n Threads.shutdown_order) /\
  (Threads.input_quit s = true <-> Threads.StopCapture ∈ Threads.shutdown s) /\
  (Threads.output_quit s = true <-> Threads.StopPlayback ∈ Threads.shutdown s) /\
  (Threads.JoinCapture ∈ Threads.shutdown s -> Threads.ipc s = Threads.I_exited) /\
  (Threads.JoinPlayback ∈ Threads.shutdown s -> Threads.opc s = Threads.O_exited) /\
  (Threads.Release ∈ Threads.shutdown s ->
   Threads.ipc s = Threads.I_exited /\ Threads.opc s = Threads.O_exited
   /\ Threads.shutdown s = Threads.shutdown_order) /\
  (forall s',
     Threads.step s Threads.main_step = Some s' ->
     Threads.shutdown s' = Threads.shutdown s ++ [Threads.WakePlayback] ->
     Threads.lock s = Some Threads.Main /\
     Threads.queue s' = Threads.queue s /\
     Threads.opc s' = match Threads.opc s with
                      | Threads.O_wait => Threads.O_woken
                      | pc => pc
                      end) /\
  (Threads.Release ∈ Threads.shutdown s ->
   Threads.held s = [Threads.CliSocket; Threads.SrvSocket]) /\
  (Threads.Release ∉ Threads.shutdown s ->
   Threads.held s = Threads.acquired (Threads.kind s)).
Proof.
  assert (Hreach : Threads.reachable Sample.all_gone)
    by (exists Threads.Speex, Sample.interrupted_call; reflexivity).
  split; [exact Hreach|].
  apply (shutdown_in_order Sample.all_gone Hreach).
Defined.

(** C6 as stated fails in its last step: the sockets are not among what
    is given back.  In either variant the run [Sample.interrupted_call]
    takes the six steps in order; at its end no thread can move, and
    the process holds the two sockets still. *)
Lemma sockets_left_open :
  (Threads.run (Threads.init Z Threads.Speex) Sample.interrupted_call
   = Some Sample.all_gone
   /\ Threads.shutdown Sample.all_gone = Threads.shutdown_order
   /\ (forall l, Threads.step Sample.all_gone l = None)
   /\ Threads.CliSocket ∈ Threads.held Sample.all_gone
   /\ Threads.SrvSocket ∈ Threads.held Sample.all_gone) /\
  (Threads.run (Threads.init Z Threads.RawPcm) Sample.interrupted_call
   = Some Sample.raw_all_gone
   /\ Threads.shutdown Sample.raw_all_gone = Threads.shutdown_order
   /\ (forall l, Threads.step Sample.raw_all_gone l = None)
   /\ Threads.CliSocket ∈ Threads.held Sample.raw_all_gone
   /\ Threads.SrvSocket ∈ Threads.held Sample.raw_all_gone).
Proof.
  split; (split; [reflexivity|]); (split; [reflexivity|]);
    (split; [intros []; reflexivity|]);
    cbn [Threads.held Sample.all_gone Sample.raw_all_gone];
    rewrite !elem_of_cons; auto.
Qed.

(** * Further properties of the sources *)

(** ** What the capture threads send *)

Lemma capture_body_sent h ts e :
  0 < Codec.ce_inbytes e ->
  Codec.sent (snd (Codec.capture_body h ts e))
  = [Codec.frame h ts
       (Codec.speex_bits_write (Codec.ce_bits e)
          (COMPRESSED_BUF_SIZE - sizeof_hdr))]
  /\ fst (Codec.capture_body h ts e) = to_int (ts + FRAME_SIZE)
  /\ Codec.warnings (snd (Codec.capture_body h ts e))
     = if Codec.ce_sendto e <? 0 then 1%nat else 0%nat.
Proof.
  intros Hin. unfold Codec.capture_body.
  apply Z.ltb_lt in Hin. rewrite Hin. cbn [fst snd Codec.sent Codec.warnings].
  rewrite take_ge by (rewrite frame_length; unfold sizeof_hdr; lia).
  destruct (Codec.ce_sendto e <? 0); repeat split.
Qed.

Lemma frame_unfold_length h ts payload :
  Z.of_nat (length (sig_on_wire ++ store32 h (to_u32 ts) ++ payload))
  = 8 + Z.of_nat (length payload).
Proof. rewrite !length_app, store32_length. cbn. lia. Qed.

Lemma frame_to_int h a b payload :
  Codec.frame h (to_int a + b) payload = Codec.frame h (a + b) payload.
Proof. unfold Codec.frame. now rewrite to_u32_add_to_int. Qed.

Lemma warnings_app evs1 evs2 :
  Codec.warnings (evs1 ++ evs2)
  = (Codec.warnings evs1 + Codec.warnings evs2)%nat.
Proof.
  induction evs1 as [|ev evs1 IH]; [reflexivity|].
  destruct ev; cbn [app Codec.warnings]; rewrite IH; reflexivity.
Qed.

Lemma capture_loop_sent h envs : forall ts,
  Codec.sent (Codec.capture_loop h ts envs)
  = imap (fun (i : nat) e =>
            Codec.frame h (ts + Z.of_nat i * FRAME_SIZE)
              (Codec.speex_bits_write (Codec.ce_bits e)
                 (COMPRESSED_BUF_SIZE - sizeof_hdr)))
      (Codec.sending envs)
  /\ Codec.warnings (Codec.capture_loop h ts envs)
     = length (filter (fun e => Codec.ce_sendto e < 0) (Codec.sending envs)).
Proof.
  induction envs as [|e envs IH]; intros ts;
    cbn [Codec.capture_loop Codec.sending]; [split; reflexivity|].
  destruct (Codec.ce_quit e); [split; reflexivity|].
  destruct (Z_lt_le_dec 0 (Codec.ce_inbytes e)) as [Hin|Hin].
  - destruct (capture_body_sent h ts e Hin) as (Hsent & Hnext & Hwarn).
    destruct (Codec.capture_body h ts e) as [ts' evs]. cbn [fst snd] in *.
    apply Z.ltb_lt in Hin. rewrite Hin.
    destruct (IH ts') as [IHsent IHwarn]. subst ts'. split.
    + rewrite sent_app, Hsent, IHsent, imap_cons. cbn [app].
      f_equal; [f_equal; lia|].
      apply imap_ext. intros i x _. cbn.
      rewrite frame_to_int. f_equal. lia.
    + rewrite warnings_app, Hwarn, IHwarn, filter_cons.
      destruct (Z.ltb_spec (Codec.ce_sendto e) 0);
        destruct (decide (Codec.ce_sendto e < 0)); try lia; reflexivity.
  - rewrite capture_body_idle by exact Hin. cbn [app].
    apply Z.ltb_ge in Hin. rewrite Hin. apply IH.
Qed.

(** X1.  What the capture thread hands to [sendto] are, in order, the
    frames of the turns that read something before the first turn told
    to quit, the n-th with the timestamp [n * 320]: a turn that reads
    nothing and a send that fails leave no gap in the counter, and a
    failed send costs one warning and nothing else. *)
Theorem capture_sends_every_frame (h : host) (envs : list Codec.capture_env) :
  Codec.sent (Codec.capture h envs)
  = imap (fun (i : nat) e =>
            Codec.frame h (Z.of_nat i * FRAME_SIZE)
              (Codec.speex_bits_write (Codec.ce_bits e)
                 (COMPRESSED_BUF_SIZE - sizeof_hdr)))
      (Codec.sending envs)
  /\ Codec.warnings (Codec.capture h envs)
     = length (filter (fun e => Codec.ce_sendto e < 0) (Codec.sending envs)).
Proof.
  unfold Codec.capture. destruct (capture_loop_sent h envs 0) as [-> ->].
  split; reflexivity.
Qed.

(** X2.  Every datagram the capture thread sends begins with the bytes
    CA FE BA BE, on a host of either byte order, and has between 8 and
    1500 bytes, so that it fits the receive buffer of the peer. *)
Theorem capture_datagrams_fit (h : host) (envs : list Codec.capture_env)
    (d : list byte) :
  d ∈ Codec.sent (Codec.capture h envs) ->
  take 4 d = sig_on_wire /\
  sizeof_hdr <= Z.of_nat (length d) <= COMPRESSED_BUF_SIZE.
Proof.
  unfold Codec.capture. destruct (capture_loop_sent h envs 0) as [-> _].
  intros Hd. apply list_elem_of_lookup in Hd as [i Hi].
  rewrite list_lookup_imap in Hi.
  destruct (Codec.sending envs !! i) as [e|]; [|discriminate].
  cbn in Hi. injection Hi as <-.
  rewrite frame_unfold, frame_unfold_length.
  split; [reflexivity|].
  pose proof (speex_bits_write_length (Codec.ce_bits e)
                (COMPRESSED_BUF_SIZE - sizeof_hdr)) as HL.
  unfold COMPRESSED_BUF_SIZE, sizeof_hdr in *. lia.
Qed.

Lemma capture_datagrams_fit_witness :
  (sig_on_wire ++ [Byte.x00; Byte.x00; Byte.x00; Byte.x00]
     ++ [Byte.x01; Byte.x02; Byte.x03])
    ∈ Codec.sent (Codec.capture Sample.x86_64 [Sample.reading])
  /\ take 4 (sig_on_wire ++ [Byte.x00; Byte.x00; Byte.x00; Byte.x00]
               ++ [Byte.x01; Byte.x02; Byte.x03]) = sig_on_wire
  /\ sizeof_hdr
     <= Z.of_nat (length (sig_on_wire
                            ++ [Byte.x00; Byte.x00; Byte.x00; Byte.x00]
                            ++ [Byte.x01; Byte.x02; Byte.x03]))
     <= COMPRESSED_BUF_SIZE.
Proof.
  assert (Hin : (sig_on_wire ++ [Byte.x00; Byte.x00; Byte.x00; Byte.x00]
                   ++ [Byte.x01; Byte.x02; Byte.x03])
                  ∈ Codec.sent (Codec.capture Sample.x86_64 [Sample.reading]))
    by (apply list_elem_of_In; simpl; left; reflexivity).
  split; [exact Hin|].
  apply (capture_datagrams_fit Sample.x86_64 [Sample.reading] _ Hin).
Defined.

Lemma raw_sent_app evs1 evs2 :
  Raw.sent (evs1 ++ evs2) = Raw.sent evs1 ++ Raw.sent evs2.
Proof.
  induction evs1 as [|ev evs1 IH]; [reflexivity|].
  destruct ev; cbn [app Raw.sent]; rewrite IH; reflexivity.
Qed.

Lemma raw_sleeps_app evs1 evs2 :
  Raw.sleeps (evs1 ++ evs2) = (Raw.sleeps evs1 + Raw.sleeps evs2)%nat.
Proof.
  induction evs1 as [|ev evs1 IH]; [reflexivity|].
  destruct ev; cbn [app Raw.sleeps]; rewrite IH; reflexivity.
Qed.

(** X3.  The input thread of the raw variant sends what it reads and
    nothing else: the datagrams handed to [sendto] are, in order, what
    [read] stored in the turns before the first one told to quit, each
    of 1 to 8192 bytes; and it sleeps the 50 ms once for every datagram,
    whether or not the send went through. *)
Theorem input_pcm_sends_what_it_reads (envs : list Raw.input_env) :
  Raw.sent (Raw.input_pcm envs)
  = map (fun e => take (Z.to_nat Raw.PCM_BUF_SIZE) (Raw.ie_read e))
      (Raw.sending envs)
  /\ Forall (fun d => 0 < Z.of_nat (length d) <= Raw.PCM_BUF_SIZE)
       (Raw.sent (Raw.input_pcm envs))
  /\ Raw.sleeps (Raw.input_pcm envs) = length (Raw.sending envs)
  /\ Forall (fun ev => forall usec, ev = Raw.Usleep usec -> usec = 50000)
       (Raw.input_pcm envs).
Proof.
  induction envs as [|e envs (IH1 & IH2 & IH3 & IH4)];
    cbn [Raw.input_pcm Raw.sending].
  { repeat split; constructor. }
  destruct (Raw.ie_quit e). { repeat split; constructor. }
  destruct (Raw.ie_read e) as [|b r] eqn:Hr.
  { cbn. auto. }
  set (data := take (Z.to_nat Raw.PCM_BUF_SIZE) (b :: r)).
  assert (Hlen : 0 < Z.of_nat (length data) <= Raw.PCM_BUF_SIZE).
  { subst data. rewrite length_take. unfold Raw.PCM_BUF_SIZE. cbn [length]. lia. }
  replace (0 <? Z.of_nat (length data)) with true
    by (symmetry; apply Z.ltb_lt; lia).
  rewrite raw_sent_app, raw_sleeps_app. cbn [Raw.sent map].
  rewrite Nat2Z.id, firstn_all.
  replace (Raw.sent ((if Raw.ie_sendto e <? 0 then [Raw.Warn "sendto"] else [])
                       ++ [Raw.Usleep Raw.UDELAY_SEND])) with (@nil (list byte))
    by (destruct (Raw.ie_sendto e <? 0); reflexivity).
  replace (Raw.sleeps (Raw.Sendto data (Z.of_nat (length data))
             :: (if Raw.ie_sendto e <? 0 then [Raw.Warn "sendto"] else [])
             ++ [Raw.Usleep Raw.UDELAY_SEND])) with 1%nat
    by (destruct (Raw.ie_sendto e <? 0); reflexivity).
  cbn [app length]. rewrite IH1, IH3, Hr. fold data.
  split; [reflexivity|]. split; [|split; [reflexivity|]].
  - constructor; [exact Hlen|]. rewrite <- IH1. exact IH2.
  - constructor; [discriminate|].
    apply Forall_app. split; [|exact IH4].
    destruct (Raw.ie_sendto e <? 0); repeat constructor;
      intros usec; try discriminate; intros [= <-]; reflexivity.
Qed.

(** ** What the receive loops queue *)

Lemma raw_recvfrom_spec mem d :
  let got := take (length mem) d in
  Raw.recvfrom mem d = (got ++ drop (length got) mem, Z.of_nat (length got))
  /\ length (got ++ drop (length got) mem) = length mem
  /\ (length got <= length mem)%nat.
Proof.
  intros got. split; [reflexivity|].
  assert (length got <= length mem)%nat
    by (subst got; rewrite length_take; lia).
  rewrite length_app, length_drop. lia.
Qed.

Lemma raw_do_output_pcm_received h got rest l :
  Raw.do_output_pcm h (got ++ rest) (Z.of_nat (length got)) l
  = if negb (malloc_ok h sizeof_entry) then Exit 1 "malloc"
    else if negb (malloc_ok h (Z.of_nat (length got))) then Exit 1 "malloc"
    else Done (l ++ [ {| Raw.buf := got; Raw.len := Z.of_nat (length got) |} ]).
Proof.
  unfold Raw.do_output_pcm.
  destruct (malloc_ok h sizeof_entry); cbn [negb]; [|reflexivity].
  destruct (malloc_ok h _); cbn [negb]; [|reflexivity].
  rewrite memcpy_from_app_l by lia.
  cbn. rewrite Nat2Z.id, firstn_all. reflexivity.
Qed.

(** X4.  A turn of the receive loop of the raw variant that is not
    verbose, or in which [getnameinfo] succeeds, stays inside what the
    program has set up, whatever arrives: it does not fault, it prints
    no array left unfilled, the buffer keeps its size, the process ends
    with status 1 if it ends, and the queue is left as it was or longer
    by one entry at the tail. *)
Theorem raw_receive_stays_in_bounds (h : host) (e : Raw.main_env)
    (mem : list byte) (l : list Raw.pcm_buf) :
  Raw.me_verbose e = false \/ 0 <= Raw.me_getnameinfo e ->
  match Raw.main_body h e mem l with
  | Raw.Faulted _ => False
  | Raw.Turned mem' l' evs =>
      length mem' = length mem
      /\ (l' = l \/ exists pctx, l' = l ++ [pctx])
      /\ Raw.prints_unset evs = false
  | Raw.Died status _ evs => status = 1 /\ Raw.prints_unset evs = false
  | Raw.Interrupted evs => Raw.prints_unset evs = false
  end.
Proof.
  intros Hquiet. unfold Raw.main_body.
  destruct (Raw.me_sigint e); [destruct (Raw.me_verbose e); reflexivity|].
  destruct (Raw.me_datagram e) as [d|]; [|auto].
  destruct (raw_recvfrom_spec mem d) as (-> & Hlen & _).
  destruct (0 <? _); [|auto].
  assert (Hevs : Raw.prints_unset
                   (if Raw.me_verbose e
                    then if Raw.me_getnameinfo e <? 0
                         then [Raw.Warn "getnameinfo";
                               Raw.PrintfUnset "Received %zd bytes from %s"]
                         else [Raw.Printf "Received %zd bytes from %s"]
                    else []) = false).
  { destruct Hquiet as [->|Hgot]; [reflexivity|].
    apply Z.ltb_ge in Hgot. rewrite Hgot.
    destruct (Raw.me_verbose e); reflexivity. }
  rewrite raw_do_output_pcm_received.
  destruct (malloc_ok h sizeof_entry); cbn [negb]; [|auto].
  destruct (malloc_ok h _); cbn [negb]; [|auto].
  split; [exact Hlen|]. split; [right; eauto|exact Hevs].
Qed.

Lemma raw_receive_stays_in_bounds_witness :
  match Raw.main_body Sample.x86_64
          {| Raw.me_sigint := false; Raw.me_verbose := true;
             Raw.me_datagram := Some [Byte.x0a; Byte.x0b];
             Raw.me_getnameinfo := 0 |}
          (Sample.zeroes (Z.to_nat 8192)) [] with
  | Raw.Faulted _ => False
  | Raw.Turned mem' l' evs =>
      length mem' = length (Sample.zeroes (Z.to_nat 8192))
      /\ (l' = [] \/ exists pctx, l' = [] ++ [pctx])
      /\ Raw.prints_unset evs = false
  | Raw.Died status _ evs => status = 1 /\ Raw.prints_unset evs = false
  | Raw.Interrupted evs => Raw.prints_unset evs = false
  end.
Proof.
  apply (raw_receive_stays_in_bounds Sample.x86_64
           {| Raw.me_sigint := false; Raw.me_verbose := true;
              Raw.me_datagram := Some [Byte.x0a; Byte.x0b];
              Raw.me_getnameinfo := 0 |}
           (Sample.zeroes (Z.to_nat 8192)) []).
  right. cbn. lia.
Defined.

(** X5.  In raw mode a datagram is queued as it came: a turn of the
    receive loop that finds a datagram of at least one byte appends one
    entry that holds its bytes, cut to the 8192 bytes of the buffer when
    it is longer, with their number as the length; an empty datagram is
    not queued. *)
Theorem raw_datagram_queued_verbatim (h : host) (e : Raw.main_env)
    (mem : list byte) (l : list Raw.pcm_buf) (d : list byte) :
  Raw.me_sigint e = false ->
  Raw.me_datagram e = Some d ->
  Z.of_nat (length mem) = Raw.PCM_BUF_SIZE ->
  let got := take (Z.to_nat Raw.PCM_BUF_SIZE) d in
  malloc_ok h sizeof_entry = true ->
  malloc_ok h (Z.of_nat (length got)) = true ->
  exists mem' evs,
    Raw.main_body h e mem l
    = Raw.Turned mem'
        (match d with
         | [] => l
         | _ :: _ =>
             l ++ [ {| Raw.buf := got; Raw.len := Z.of_nat (length got) |} ]
         end) evs.
Proof.
  intros Hsig Hd Hmem got Hentry Hblock.
  unfold Raw.main_body. rewrite Hsig, Hd.
  destruct (raw_recvfrom_spec mem d) as (-> & _ & _).
  replace (length mem) with (Z.to_nat Raw.PCM_BUF_SIZE) by lia. fold got.
  destruct d as [|b d].
  - subst got. cbn. eauto.
  - replace (0 <? Z.of_nat (length got)) with true.
    + rewrite raw_do_output_pcm_received, Hentry, Hblock. cbn [negb]. eauto.
    + symmetry. apply Z.ltb_lt. subst got. rewrite length_take.
      unfold Raw.PCM_BUF_SIZE. cbn [length]. lia.
Qed.

Lemma raw_datagram_queued_verbatim_witness :
  exists mem' evs,
    Raw.main_body Sample.x86_64
      {| Raw.me_sigint := false; Raw.me_verbose := true;
         Raw.me_datagram := Some [Byte.x0a; Byte.x0b];
         Raw.me_getnameinfo := 0 |}
      (Sample.zeroes (Z.to_nat 8192)) []
    = Raw.Turned mem'
        ([] ++ [ {| Raw.buf := [Byte.x0a; Byte.x0b]; Raw.len := 2 |} ]) evs.
Proof.
  apply (raw_datagram_queued_verbatim Sample.x86_64
           {| Raw.me_sigint := false; Raw.me_verbose := true;
              Raw.me_datagram := Some [Byte.x0a; Byte.x0b];
              Raw.me_getnameinfo := 0 |}
           (Sample.zeroes (Z.to_nat 8192)) [] [Byte.x0a; Byte.x0b]);
    reflexivity.
Defined.

Lemma codec_recvfrom_spec mem d :
  let got := take (length mem) d in
  Codec.recvfrom mem d = (got ++ drop (length got) mem, Z.of_nat (length got))
  /\ length (got ++ drop (length got) mem) = length mem
  /\ (length got <= length mem)%nat.
Proof.
  intros got. split; [reflexivity|].
  assert (length got <= length mem)%nat
    by (subst got; rewrite length_take; lia).
  rewrite length_app, length_drop. lia.
Qed.

(** X6.  In codec mode a datagram of 8 bytes or more is passed on
    whatever its length: a turn of the receive loop cuts it to the 1500
    bytes of the buffer and routes the bytes from offset 8 on, up to
    1492 of them, under the timestamp in bytes 4 to 7; the bytes beyond
    the buffer are lost, and nothing outside the buffer is read. *)
Theorem long_datagram_cut_and_routed (h : host) (e : Codec.main_env)
    (mem : list byte) (s : Codec.shared) (d : list byte) :
  Codec.me_sigint e = false ->
  Codec.me_datagram e = Some d ->
  Z.of_nat (length mem) = COMPRESSED_BUF_SIZE ->
  sizeof_hdr <= Z.of_nat (length d) ->
  let got := take (Z.to_nat COMPRESSED_BUF_SIZE) d in
  malloc_ok h sizeof_entry = true ->
  malloc_ok h (Z.of_nat (length got) - sizeof_hdr) = true ->
  exists ts mem' evs,
    Codec.hdr_timestamp h d = Some ts /\
    length mem' = length mem /\
    Codec.main_body h e mem s
    = Codec.Turned mem' (Codec.routed s (drop 8 got) (to_int ts)) evs /\
    Z.of_nat (length (drop 8 got)) <= COMPRESSED_BUF_SIZE - sizeof_hdr.
Proof.
  intros Hsig Hd Hmem Hlen got Hentry Hmalloc.
  unfold sizeof_hdr, COMPRESSED_BUF_SIZE in *.
  assert (Hgot : (8 <= length got <= 1500)%nat)
    by (subst got; rewrite length_take; lia).
  destruct (process_compressed_packet_long h got (drop (length got) mem) s)
    as (ts & Hts & Hproc);
    [lia|unfold COMPRESSED_BUF_SIZE; lia|exact Hentry|exact Hmalloc|].
  assert (Hts' : Codec.hdr_timestamp h d = Some ts).
  { rewrite <- Hts. rewrite <- (take_drop 1500 d) at 1.
    change (take 1500 d) with got. apply hdr_timestamp_app. lia. }
  exists ts. unfold Codec.main_body. rewrite Hsig, Hd.
  destruct (codec_recvfrom_spec mem d) as (-> & Hsize & _).
  replace (length mem) with (Z.to_nat 1500) in * by lia. fold got in Hsize |- *.
  replace (0 <? Z.of_nat (length got)) with true
    by (symmetry; apply Z.ltb_lt; lia).
  rewrite Hproc. eexists _, _.
  split; [exact Hts'|]. split; [exact Hsize|]. split; [reflexivity|].
  rewrite length_drop. lia.
Qed.

Lemma long_datagram_cut_and_routed_witness :
  exists ts mem' evs,
    Codec.hdr_timestamp Sample.x86_64 (Sample.stray ++ Sample.zeroes 2000)
    = Some ts /\
    length mem' = length (Sample.zeroes 1500) /\
    Codec.main_body Sample.x86_64
      (Sample.receiving (Sample.stray ++ Sample.zeroes 2000))
      (Sample.zeroes 1500) Sample.fresh
    = Codec.Turned mem'
        (Codec.routed Sample.fresh
           (drop 8 (take (Z.to_nat COMPRESSED_BUF_SIZE)
                      (Sample.stray ++ Sample.zeroes 2000)))
           (to_int ts)) evs /\
    Z.of_nat (length (drop 8 (take (Z.to_nat COMPRESSED_BUF_SIZE)
                                (Sample.stray ++ Sample.zeroes 2000))))
    <= COMPRESSED_BUF_SIZE - sizeof_hdr.
Proof.
  apply (long_datagram_cut_and_routed Sample.x86_64
           (Sample.receiving (Sample.stray ++ Sample.zeroes 2000))
           (Sample.zeroes 1500) Sample.fresh
           (Sample.stray ++ Sample.zeroes 2000)).
  - reflexivity.
  - reflexivity.
  - reflexivity.
  - unfold sizeof_hdr. vm_compute. discriminate.
  - reflexivity.
  - vm_compute. reflexivity.
Defined.

(** X7.  The entries of the raw queue stay as [do_output_pcm] makes
    them: if every entry notes the true length of its block, between 1
    and 8192, a turn of the receive loop leaves it so whatever arrives,
    and the output thread then gives [ao_play] each block with its own
    length, never a length beyond the block. *)
Theorem raw_entries_stay_well_formed (h : host) (e : Raw.main_env)
    (mem : list byte) (l : list Raw.pcm_buf) :
  Z.of_nat (length mem) = Raw.PCM_BUF_SIZE ->
  Forall Raw.well_formed l ->
  match Raw.main_body h e mem l with
  | Raw.Turned _ l' _ => Forall Raw.well_formed l'
  | _ => True
  end /\
  Forall (fun w => snd w = Z.of_nat (length (fst w))
                   /\ 0 < snd w <= Raw.PCM_BUF_SIZE)
    (Raw.plays (Raw.dequeue l)).
Proof.
  intros Hmem Hl. split.
  - unfold Raw.main_body.
    destruct (Raw.me_sigint e); [exact I|].
    destruct (Raw.me_datagram e) as [d|]; [|exact Hl].
    destruct (raw_recvfrom_spec mem d) as (-> & _ & Hgot).
    destruct (0 <? _) eqn:Hpos; [|exact Hl].
    rewrite raw_do_output_pcm_received.
    destruct (malloc_ok h sizeof_entry); cbn [negb]; [|exact I].
    destruct (malloc_ok h _); cbn [negb]; [|exact I].
    apply Forall_app. split; [exact Hl|]. constructor; [|constructor].
    apply Z.ltb_lt in Hpos. split; cbn; [reflexivity|lia].
  - rewrite raw_plays_dequeue. apply Forall_map.
    eapply Forall_impl; [exact Hl|]. intros pctx Hwf. exact Hwf.
Qed.

Lemma raw_entries_stay_well_formed_witness :
  match Raw.main_body Sample.x86_64
          {| Raw.me_sigint := false; Raw.me_verbose := false;
             Raw.me_datagram := Some [Byte.x0c];
             Raw.me_getnameinfo := 0 |}
          (Sample.zeroes (Z.to_nat 8192))
          [ {| Raw.buf := [Byte.x0a; Byte.x0b]; Raw.len := 2 |} ] with
  | Raw.Turned _ l' _ => Forall Raw.well_formed l'
  | _ => True
  end /\
  Forall (fun w => snd w = Z.of_nat (length (fst w))
                   /\ 0 < snd w <= Raw.PCM_BUF_SIZE)
    (Raw.plays (Raw.dequeue
                  [ {| Raw.buf := [Byte.x0a; Byte.x0b]; Raw.len := 2 |} ])).
Proof.
  apply (raw_entries_stay_well_formed Sample.x86_64
           {| Raw.me_sigint := false; Raw.me_verbose := false;
              Raw.me_datagram := Some [Byte.x0c];
              Raw.me_getnameinfo := 0 |}
           (Sample.zeroes (Z.to_nat 8192))
           [ {| Raw.buf := [Byte.x0a; Byte.x0b]; Raw.len := 2 |} ]).
  - reflexivity.
  - repeat constructor; cbn; unfold Raw.PCM_BUF_SIZE; lia.
Defined.

(** ** From one end to the other, raw mode *)

Lemma input_turn_sent (ie : Raw.input_env) :
  Raw.ie_quit ie = false ->
  Raw.ie_read ie <> [] ->
  let data := take (Z.to_nat Raw.PCM_BUF_SIZE) (Raw.ie_read ie) in
  Raw.sent (Raw.input_pcm [ie]) = [data]
  /\ 0 < Z.of_nat (length data) <= Raw.PCM_BUF_SIZE.
Proof.
  intros Hq Hr data.
  assert (Hlen : 0 < Z.of_nat (length data) <= Raw.PCM_BUF_SIZE).
  { subst data. rewrite length_take. unfold Raw.PCM_BUF_SIZE.
    destruct (Raw.ie_read ie); [congruence|]. cbn [length]. lia. }
  split; [|exact Hlen].
  cbn [Raw.input_pcm]. rewrite Hq. fold data.
  replace (0 <? Z.of_nat (length data)) with true
    by (symmetry; apply Z.ltb_lt; lia).
  rewrite app_nil_r. cbn [Raw.sent].
  rewrite Nat2Z.id, firstn_all.
  destruct (Raw.ie_sendto ie <? 0); reflexivity.
Qed.

(** X8.  Raw mode carries the samples unchanged: what the input thread
    reads in one turn and sends, the receive loop of the peer queues,
    and the output thread of the peer plays, is byte for byte what was
    read, up to the first 8192 bytes, with their number as the length. *)
Theorem raw_end_to_end (h : host) (ie : Raw.input_env) (me : Raw.main_env)
    (oe : Raw.output_env) (mem : list byte) (d : list byte) :
  let data := take (Z.to_nat Raw.PCM_BUF_SIZE) (Raw.ie_read ie) in
  Raw.ie_quit ie = false ->
  Raw.ie_read ie <> [] ->
  Raw.sent (Raw.input_pcm [ie]) = [d] ->
  Raw.me_sigint me = false ->
  Raw.me_datagram me = Some d ->
  Z.of_nat (length mem) = Raw.PCM_BUF_SIZE ->
  malloc_ok h sizeof_entry = true ->
  malloc_ok h (Z.of_nat (length data)) = true ->
  Raw.oe_quit oe = false ->
  exists mem' l' evs evs',
    Raw.main_body h me mem [] = Raw.Turned mem' l' evs /\
    Raw.output_pcm_body oe l' = Raw.Played [] evs' /\
    Raw.plays evs' = [(data, Z.of_nat (length data))].
Proof.
  intros data Hq Hr Hsent Hsig Hd Hmem Hentry Hblock Hoq.
  destruct (input_turn_sent ie Hq Hr) as [Hs Hlen]. fold data in Hs, Hlen.
  rewrite Hs in Hsent. injection Hsent as <-.
  unfold Raw.main_body. rewrite Hsig, Hd.
  destruct (raw_recvfrom_spec mem data) as (-> & _ & _).
  rewrite (take_ge data (length mem)) by lia.
  replace (0 <? Z.of_nat (length data)) with true
    by (symmetry; apply Z.ltb_lt; lia).
  rewrite raw_do_output_pcm_received, Hentry, Hblock. cbn [negb app].
  eexists _, _, _, _. split; [reflexivity|].
  unfold Raw.output_pcm_body, Raw.output_wait. cbn [list_empty].
  rewrite Hoq. split; reflexivity.
Qed.

Lemma raw_end_to_end_witness :
  exists mem' l' evs evs',
    Raw.main_body Sample.x86_64
      {| Raw.me_sigint := false; Raw.me_verbose := false;
         Raw.me_datagram := Some [Byte.x0a; Byte.x0b];
         Raw.me_getnameinfo := 0 |}
      (Sample.zeroes (Z.to_nat 8192)) []
    = Raw.Turned mem' l' evs /\
    Raw.output_pcm_body Sample.running l' = Raw.Played [] evs' /\
    Raw.plays evs' = [([Byte.x0a; Byte.x0b], 2)].
Proof.
  apply (raw_end_to_end Sample.x86_64
           {| Raw.ie_quit := false; Raw.ie_read := [Byte.x0a; Byte.x0b];
              Raw.ie_sendto := 2 |}
           {| Raw.me_sigint := false; Raw.me_verbose := false;
              Raw.me_datagram := Some [Byte.x0a; Byte.x0b];
              Raw.me_getnameinfo := 0 |}
           Sample.running (Sample.zeroes (Z.to_nat 8192))
           [Byte.x0a; Byte.x0b]);
    try reflexivity.
  discriminate.
Defined.

(** ** From the command line to the running threads *)

Lemma parse_options_stops opts : forall f,
  match Codec.parse_options opts f with
  | Done _ => existsb Codec.stops opts = false
  | Exit st _ =>
      (st = 1 \/ (st = 0 /\ existsb Codec.informs opts = true))
      /\ existsb Codec.stops opts = true
  | Fault => False
  end.
Proof.
  induction opts as [|o opts IH]; intros f; [reflexivity|].
  destruct o; cbn [Codec.parse_options existsb Codec.stops Codec.informs orb];
    try apply IH; auto.
Qed.

Local Ltac flatten_apps :=
  repeat first [rewrite <- app_assoc | progress cbn [app]].

Local Ltac count_calls :=
  repeat first [rewrite length_app | progress cbn [length]]; lia.

Lemma after_channel_check_calls env bits rate chan devid verbose :
  let dev := if devid =? 0 then Codec.se_default_driver env else devid in
  let calls := Codec.setup_calls dev rate bits chan verbose
                 (fst (Codec.socket_loop (Codec.se_cli_addrs env)))
                 (fst (Codec.bind_loop (Codec.se_srv_addrs env))) in
  match Codec.after_channel_check env bits rate chan devid verbose with
  | (t, Done f) =>
      t = calls /\
      f = {| Codec.fbits := bits; Codec.frate := rate; Codec.fchan := chan;
             Codec.fdevid := dev; Codec.fverbose := verbose |}
  | (t, Exit st msg) =>
      st = 1 /\ t `prefix_of` calls /\
      ((length t < length calls)%nat
       \/ (t = calls /\ msg = "signal"%string /\ Codec.se_signal_usr1 env = false))
  | (_, Fault) => False
  end.
Proof.
  intros dev calls. subst calls. unfold Codec.after_channel_check.
  fold dev. unfold Codec.setup_calls.
  destruct (Codec.socket_loop _) as [cli p0].
  destruct (Codec.bind_loop _) as [srv p1]. cbn [fst].
  destruct (Codec.se_signal_usr1 env) eqn:Husr.
  - repeat match goal with
           | |- context [if negb ?c then _ else _] => destruct c; cbn [negb]
           end;
      destruct verbose; flatten_apps;
      try (split; reflexivity);
      (split; [reflexivity|]; split;
       [eexists; flatten_apps; reflexivity|left; count_calls]).
  - repeat match goal with
           | |- context [if negb ?c then _ else _] => destruct c; cbn [negb]
           end;
      destruct verbose; flatten_apps;
      try (split; [reflexivity|]; split; [exists []; now rewrite app_nil_r|];
           right; auto; fail);
      (split; [reflexivity|]; split;
       [eexists; flatten_apps; reflexivity|left; count_calls]).
Qed.

(** X9.  How the setup of the codec variant can end: it never faults;
    it ends the process with status 0 or 1, with 0 only when the help
    screen or the version was asked for, and then before any call to the
    device or the network; and it reaches the receive loop only with
    three arguments and no option that ends the process. *)
Theorem setup_exit_status (env : Codec.setup_env)
    (opts : list Codec.cli_option) (argc : Z) :
  match Codec.main_setup env opts argc with
  | (_, Fault) => False
  | (t, Exit st _) =>
      st = 1 \/ (st = 0 /\ t = [] /\ existsb Codec.informs opts = true)
  | (_, Done _) => argc = 3 /\ existsb Codec.stops opts = false
  end.
Proof.
  unfold Codec.main_setup.
  pose proof (parse_options_stops opts Codec.no_flags) as Hparse.
  destruct (Codec.parse_options opts Codec.no_flags) as [f|st msg|];
    [|destruct Hparse as [[->|[-> Hinf]] _]; auto|exact Hparse].
  destruct (Z.eqb_spec argc 3) as [->|Hargc]; cbn [negb]; [|auto].
  assert (Hafter : forall bits rate chan,
             match Codec.after_channel_check env bits rate chan
                     (Codec.fdevid f) (Codec.fverbose f) with
             | (_, Fault) => False
             | (t, Exit st _) =>
                 st = 1 \/ (st = 0 /\ t = []
                            /\ existsb Codec.informs opts = true)
             | (_, Done _) => 3 = 3 /\ existsb Codec.stops opts = false
             end).
  { intros bits rate chan.
    pose proof (after_channel_check_calls env bits rate chan
                  (Codec.fdevid f) (Codec.fverbose f)) as H.
    destruct (Codec.after_channel_check _ _ _ _ _ _) as [t [f'|st msg|]];
      [auto|left; apply H|exact H]. }
  destruct (Codec.fchan f =? 0); [apply Hafter|].
  destruct (Codec.fchan f =? 1); cbn [negb]; [apply Hafter|auto].
Qed.

(** X10.  The calls of the codec variant's setup come in one order:
    what has been called when the setup ends is an initial part of:
    device opened with one channel, codec initialised, settings printed
    when verbose, the look-up of the peer and the sockets tried for it,
    the look-up of the own port and the sockets tried and bound for it,
    playback thread created, the two descriptors made non-blocking,
    capture thread created, the handlers of [SIGINT] and [SIGUSR1]
    installed.  The receive loop is reached only when all of them were
    made; a setup that ends the process has left some out, unless it is
    the very last call, that for [SIGUSR1], that failed. *)
Theorem setup_calls_in_order (env : Codec.setup_env)
    (opts : list Codec.cli_option) (argc : Z) :
  exists dev rate bits verbose,
    let calls := Codec.setup_calls dev rate bits 1 verbose
                   (fst (Codec.socket_loop (Codec.se_cli_addrs env)))
                   (fst (Codec.bind_loop (Codec.se_srv_addrs env))) in
    match Codec.main_setup env opts argc with
    | (t, Done f) =>
        t = calls /\
        f = {| Codec.fbits := bits; Codec.frate := rate; Codec.fchan := 1;
               Codec.fdevid := dev; Codec.fverbose := verbose |}
    | (t, Exit _ msg) =>
        t `prefix_of` calls /\
        ((length t < length calls)%nat
         \/ (t = calls /\ msg = "signal"%string
             /\ Codec.se_signal_usr1 env = false))
    | (_, Fault) => False
    end.
Proof.
  unfold Codec.main_setup.
  pose proof (parse_options_stops opts Codec.no_flags) as Hparse.
  assert (Hnone : forall msg : string,
             exists (dev rate bits : Z) (verbose : bool),
               let calls := Codec.setup_calls dev rate bits 1 verbose
                   (fst (Codec.socket_loop (Codec.se_cli_addrs env)))
                   (fst (Codec.bind_loop (Codec.se_srv_addrs env))) in
               [] `prefix_of` calls /\
               ((length (@nil Codec.setup_event) < length calls)%nat
                \/ ([] = calls /\ msg = "signal"%string
                    /\ Codec.se_signal_usr1 env = false))).
  { intros msg. exists 0, 0, 0, false.
    split; [eexists; reflexivity|left; cbn; lia]. }
  assert (Hafter : forall (f0 : Codec.flags) (b0 r0 : Z),
             exists dev rate bits verbose,
               let calls := Codec.setup_calls dev rate bits 1 verbose
                   (fst (Codec.socket_loop (Codec.se_cli_addrs env)))
                   (fst (Codec.bind_loop (Codec.se_srv_addrs env))) in
               match Codec.after_channel_check env b0 r0 1
                       (Codec.fdevid f0) (Codec.fverbose f0) with
               | (t, Done f) =>
                   t = calls /\
                   f = {| Codec.fbits := bits; Codec.frate := rate;
                          Codec.fchan := 1; Codec.fdevid := dev;
                          Codec.fverbose := verbose |}
               | (t, Exit _ msg) =>
                   t `prefix_of` calls /\
                   ((length t < length calls)%nat
                    \/ (t = calls /\ msg = "signal"%string
                        /\ Codec.se_signal_usr1 env = false))
               | (_, Fault) => False
               end).
  { intros f bits rate.
    exists (if Codec.fdevid f =? 0 then Codec.se_default_driver env
            else Codec.fdevid f), rate, bits, (Codec.fverbose f).
    pose proof (after_channel_check_calls env bits rate 1
                  (Codec.fdevid f) (Codec.fverbose f)) as H.
    cbv zeta in H |- *.
    destruct (Codec.after_channel_check _ _ _ _ _ _) as [t [f'|st msg|]];
      [exact H|apply H|destruct H]. }
  destruct (Codec.parse_options opts Codec.no_flags) as [f|st msg|];
    [|apply (Hnone msg)|destruct Hparse].
  destruct (argc =? 3); cbn [negb]; [|apply (Hnone "usage"%string)].
  destruct (Codec.fchan f =? 0); [apply Hafter|].
  destruct (Z.eqb_spec (Codec.fchan f) 1) as [->|Hne]; cbn [negb];
    [apply Hafter|apply (Hnone "Unsupported number of channels: %d"%string)].
Qed.

(** X11.  The raw variant takes any channel count and does not notice a
    thread that could not be created: with the options read through,
    three arguments, and the device, the addresses, the sockets, the
    descriptor and the signal in order, the setup reaches the receive
    loop for every result of [pthread_create] that is not negative (the
    error numbers it answers are positive), and for every channel count,
    0 standing for 1. *)
Theorem raw_setup_unchecked (env : Raw.setup_env)
    (opts : list Codec.cli_option) (f : Codec.flags) :
  Raw.parse_options opts Codec.no_flags = Done f ->
  Raw.se_device env = true ->
  Raw.se_cli_getaddrinfo env = 0 -> Raw.se_cli_socket env = true ->
  Raw.se_srv_getaddrinfo env = 0 -> Raw.se_srv_bound env = true ->
  Raw.se_nonblocking_fd env = true -> Raw.se_signal env = true ->
  0 <= Raw.se_output_create env ->
  0 <= Raw.se_input_create env ->
  exists t f',
    Raw.main_setup env opts 3 = (t, Done f') /\
    Codec.fchan f' = (if Codec.fchan f =? 0 then 1 else Codec.fchan f) /\
    Raw.PthreadCreate Raw.output_pcm_thread ∈ t /\
    Raw.PthreadCreate Raw.input_pcm_thread ∈ t /\
    exists dev rate bits,
      head t = Some (Raw.AoOpenLive dev rate bits (Codec.fchan f')).
Proof.
  intros Hparse Hdev Hcli Hsock Hsrv Hbound Hfd Hsig Hout Hin.
  unfold Raw.main_setup.
  rewrite Hparse, Hdev, Hcli, Hsock, Hsrv, Hbound, Hfd, Hsig.
  apply Z.ltb_ge in Hout, Hin. rewrite Hout, Hin. cbn [negb Z.eqb].
  eexists _, _. split; [reflexivity|]. cbn [Codec.fchan].
  split; [reflexivity|].
  split; [|split].
  - rewrite !elem_of_app, !elem_of_cons. auto 10.
  - rewrite !elem_of_app, !elem_of_cons. auto 10.
  - cbn. eauto.
Qed.

Lemma raw_setup_unchecked_witness :
  exists t f',
    Raw.main_setup Sample.no_threads [Codec.opt_c 2] 3 = (t, Done f') /\
    Codec.fchan f' = 2 /\
    Raw.PthreadCreate Raw.output_pcm_thread ∈ t /\
    Raw.PthreadCreate Raw.input_pcm_thread ∈ t /\
    exists dev rate bits,
      head t = Some (Raw.AoOpenLive dev rate bits (Codec.fchan f')).
Proof.
  apply (raw_setup_unchecked Sample.no_threads [Codec.opt_c 2]
           {| Codec.fbits := 0; Codec.frate := 0; Codec.fchan := 2;
              Codec.fdevid := 0; Codec.fverbose := false |});
    try reflexivity; cbn; lia.
Defined.

(** ** Signals *)

(** X12.  What any run of signals leaves behind: [handle_sigint] is set
    once an interrupt was among them and is never cleared; in the codec
    variant [fverbose] is turned over once for every [SIGUSR1], so that
    it differs from before exactly when their number is odd; every other
    signal changes nothing. *)
Theorem signals_add_up (sigs : list Z) (g : Codec.signalled) (hs : bool) :
  let g' := fold_left (fun g signum => Codec.sig_handler signum g) sigs g in
  Codec.handle_sigint g'
  = Codec.handle_sigint g || existsb (Z.eqb Codec.SIGINT) sigs
  /\ Codec.verbose g'
     = xorb (Codec.verbose g)
         (Nat.odd (length (filter (fun s => s = Codec.SIGUSR1) sigs)))
  /\ fold_left (fun hs signum => Raw.sig_handler signum hs) sigs hs
     = hs || existsb (Z.eqb Codec.SIGINT) sigs.
Proof.
  revert g hs. induction sigs as [|s sigs IH]; intros g hs; cbn [fold_left existsb].
  - cbn. rewrite !orb_false_r. destruct (Codec.verbose g); auto.
  - destruct (IH (Codec.sig_handler s g) (Raw.sig_handler s hs))
      as (IH1 & IH2 & IH3).
    cbv zeta. rewrite IH1, IH2, IH3, filter_cons.
    unfold Codec.sig_handler, Raw.sig_handler.
    rewrite (Z.eqb_sym Codec.SIGINT s).
    destruct (decide (s = Codec.SIGUSR1)) as [Heq|Hneq];
      destruct (Z.eqb_spec s Codec.SIGINT) as [Hint|Hint];
      destruct (Z.eqb_spec s Codec.SIGUSR1) as [Husr|Husr];
      try congruence; try (subst; discriminate);
      cbn [Codec.handle_sigint Codec.verbose orb length];
      rewrite ?orb_true_r; auto.
    rewrite Nat.odd_succ, <- Nat.negb_odd.
    split; [reflexivity|]. split; [|reflexivity].
    destruct (Codec.verbose g), (Nat.odd _); reflexivity.
Qed.

(** ** Descriptors *)

(** X13.  [set_nonblocking] adds the one flag and keeps the others: when
    it returns, the flags set on the descriptor are those read with
    [O_NONBLOCK] added, every other bit as it was; done again on that
    result it sets the same flags; and it returns only if the flags
    could be read and set. *)
Theorem set_nonblocking_adds_one_flag (getfl : Z) (setfl : Z -> Z)
    (flags : Z) :
  Codec.set_nonblocking getfl setfl = Done flags ->
  0 <= getfl /\ 0 <= setfl flags /\
  Z.land flags Codec.O_NONBLOCK = Codec.O_NONBLOCK /\
  Z.land flags (Z.lnot Codec.O_NONBLOCK)
  = Z.land getfl (Z.lnot Codec.O_NONBLOCK) /\
  Codec.set_nonblocking flags setfl = Done flags.
Proof.
  unfold Codec.set_nonblocking.
  destruct (Z.ltb_spec getfl 0) as [|Hget]; [discriminate|].
  destruct (Z.ltb_spec (setfl (Z.lor getfl Codec.O_NONBLOCK)) 0) as [|Hset];
    [discriminate|].
  intros [= <-].
  assert (Hidem : Z.lor (Z.lor getfl Codec.O_NONBLOCK) Codec.O_NONBLOCK
                  = Z.lor getfl Codec.O_NONBLOCK)
    by (rewrite <- Z.lor_assoc, Z.lor_diag; reflexivity).
  split; [exact Hget|]. split; [exact Hset|]. split; [|split].
  - apply Z.bits_inj'. intros i _. rewrite Z.land_spec, Z.lor_spec.
    destruct (Z.testbit getfl i), (Z.testbit Codec.O_NONBLOCK i); reflexivity.
  - apply Z.bits_inj'. intros i Hi.
    rewrite !Z.land_spec, Z.lor_spec, Z.lnot_spec by exact Hi.
    destruct (Z.testbit getfl i), (Z.testbit Codec.O_NONBLOCK i); reflexivity.
  - destruct (Z.ltb_spec (Z.lor getfl Codec.O_NONBLOCK) 0) as [Hneg|_].
    + apply Z.lor_neg in Hneg. unfold Codec.O_NONBLOCK in Hneg. lia.
    + rewrite Hidem.
      destruct (Z.ltb_spec (setfl (Z.lor getfl Codec.O_NONBLOCK)) 0);
        [lia|reflexivity].
Qed.

Lemma set_nonblocking_adds_one_flag_witness :
  0 <= 2 /\ 0 <= 0 /\
  Z.land 2050 Codec.O_NONBLOCK = Codec.O_NONBLOCK /\
  Z.land 2050 (Z.lnot Codec.O_NONBLOCK)
  = Z.land 2 (Z.lnot Codec.O_NONBLOCK) /\
  Codec.set_nonblocking 2050 (fun _ => 0) = Done 2050.
Proof.
  apply (set_nonblocking_adds_one_flag 2 (fun _ => 0) 2050). reflexivity.
Defined.

(** ** Hosts of different byte order *)

(** X14.  The signature travels in network byte order, the timestamp in
    the byte order of the sender: on a receiver of the other byte order
    the signature of a frame reads as that receiver's
    [htonl (0xcafebabe)], but the timestamp reads with its four bytes
    reversed. *)
Theorem foreign_frame_timestamp_swapped (h h' : host) (ts : Z)
    (payload : list byte) :
  endian h <> endian h' ->
  Codec.hdr_sig h' (Codec.frame h ts payload) = Some (htonl h' 0xcafebabe) /\
  Codec.hdr_timestamp h' (Codec.frame h ts payload)
  = Some (bswap32 (to_u32 ts)).
Proof.
  intros Hne. rewrite frame_unfold. split.
  - unfold Codec.hdr_sig.
    rewrite (memcpy_from_app_l sig_on_wire _ 0 4) by (cbn; lia).
    unfold load32, htonl. destruct (endian h'); reflexivity.
  - unfold Codec.hdr_timestamp.
    rewrite (memcpy_from_app sig_on_wire (store32 h (to_u32 ts)) payload)
      by (rewrite ?store32_length; reflexivity).
    cbn [fmap option_fmap option_map]. f_equal.
    unfold load32, store32, bswap32.
    destruct (endian h), (endian h'); congruence.
Qed.

Lemma foreign_frame_timestamp_swapped_witness :
  Codec.hdr_sig Sample.big_endian
    (Codec.frame Sample.x86_64 320 [Byte.x07])
  = Some (htonl Sample.big_endian 0xcafebabe) /\
  Codec.hdr_timestamp Sample.big_endian
    (Codec.frame Sample.x86_64 320 [Byte.x07])
  = Some (bswap32 (to_u32 320)).
Proof.
  apply (foreign_frame_timestamp_swapped Sample.x86_64 Sample.big_endian
           320 [Byte.x07]).
  discriminate.
Defined.

(** ** The end of the shutdown *)

Section Shutdown.
Context {block : Type}.
Implicit Types (s : Threads.state block) (l : Threads.label block).

Lemma reachable_run s ls s' :
  Threads.reachable s -> Threads.run s ls = Some s' -> Threads.reachable s'.
Proof.
  intros (v & ls0 & Hrun0) Hrun. exists v, (ls0 ++ ls).
  now rewrite run_app, Hrun0.
Qed.

(** From every state but the last, some thread can take a step that
    brings the end nearer. *)
Lemma step_nearer s :
  Threads.invariant s -> Threads.mpc s <> Threads.M_done ->
  exists l s',
    Threads.step s l = Some s'
    /\ (Threads.distance s' < Threads.distance s)%nat.
Proof.
  intros [Hlock Hexcl Hwake Hfifo Hlog Hiq Hoq Hcj Hpj Hie Hoe Hheld] Hdone.
  destruct s as [q lk mpc opc ipc oq iq pl pu sh kd hd].
  cbn [Threads.queue Threads.lock Threads.mpc Threads.opc Threads.ipc
       Threads.output_quit Threads.input_quit Threads.played Threads.pushed
       Threads.shutdown Threads.kind Threads.held] in *.
  subst lk oq iq. clear Hfifo Hlog Hwake.
  destruct opc.
  all: destruct mpc; cbn in Hexcl; try discriminate; try congruence.
  all: try (destruct ipc; try (exfalso; discriminate (Hcj ltac:(cbn; lia)))).
  all: try (exfalso; discriminate (Hpj ltac:(cbn; lia))).
  all: try (exfalso; discriminate (Hoe eq_refl)).
  all: try (destruct q as [|b0 q]).
  all: first
    [ exists Threads.output_step; eexists; split; [reflexivity|];
      unfold Threads.distance; cbn; lia
    | exists Threads.main_sigint; eexists; split; [reflexivity|];
      unfold Threads.distance; cbn; lia
    | exists Threads.main_step; eexists; split; [reflexivity|];
      unfold Threads.distance; cbn; lia
    | exists Threads.input_step; eexists; split; [reflexivity|];
      unfold Threads.distance; cbn; lia
    | exists Threads.output_timeout; eexists; split; [reflexivity|];
      unfold Threads.distance; cbn; lia ].
Qed.

Lemma run_to_the_end (n : nat) : forall s,
  Threads.invariant s -> (Threads.distance s < n)%nat ->
  exists ls s', Threads.run s ls = Some s' /\ Threads.mpc s' = Threads.M_done.
Proof.
  induction n as [|n IH]; intros s Hinv Hn; [lia|].
  assert (Hdec : {Threads.mpc s = Threads.M_done}
                 + {Threads.mpc s <> Threads.M_done})
    by (destruct (Threads.mpc s); (left; reflexivity) || (right; discriminate)).
  destruct Hdec as [Hdone|Hnot].
  - exists [], s. split; [reflexivity|exact Hdone].
  - destruct (step_nearer s Hinv Hnot) as (l & s1 & Hstep & Hlt).
    destruct (IH s1) as (ls & s' & Hrun & Hend);
      [eapply step_invariant; eassumption|lia|].
    exists (l :: ls), s'. cbn [Threads.run]. rewrite Hstep. auto.
Qed.

(** X15.  The shutdown always comes to its end: from every state the
    threads can get into, whatever is queued and wherever the threads
    stand, some run of their statements, timeouts of the wait among
    them, leads to the state in which the main thread has released its
    resources, both other threads have left their loops, nobody holds
    the lock, and the six shutdown steps have been taken in order. *)
Theorem shutdown_completes s :
  Threads.reachable s ->
  exists ls s',
    Threads.run s ls = Some s' /\
    Threads.mpc s' = Threads.M_done /\
    Threads.opc s' = Threads.O_exited /\
    Threads.ipc s' = Threads.I_exited /\
    Threads.lock s' = None /\
    Threads.shutdown s' = Threads.shutdown_order.
Proof.
  intros Hreach.
  destruct (run_to_the_end (S (Threads.distance s)) s)
    as (ls & s' & Hrun & Hend);
    [now apply reachable_invariant|lia|].
  exists ls, s'. split; [exact Hrun|]. split; [exact Hend|].
  pose proof (reachable_invariant s' (reachable_run s ls s' Hreach Hrun))
    as [Hlock _ _ _ Hlog _ _ Hcj Hpj _ _ _].
  rewrite Hend in *. cbn in Hcj, Hpj, Hlog.
  rewrite Hlock, (Hpj ltac:(lia)), (Hcj ltac:(lia)), Hlog. repeat split.
Qed.

(** X16.  The signal of the shutdown can come too early to wake the
    playback thread: once the main thread stands in the join of the
    playback thread and the playback thread is inside the wait, no
    statement of any thread can be taken; the one thing that can
    happen is that the timed wait runs out, after which the playback
    thread stands woken, the list as it was. *)
Theorem only_the_timeout_ends_the_wait s l s' :
  Threads.reachable s ->
  Threads.mpc s = Threads.M_join_playback ->
  Threads.opc s = Threads.O_wait ->
  Threads.step s l = Some s' ->
  l = Threads.output_timeout /\
  Threads.opc s' = Threads.O_woken /\
  Threads.queue s' = Threads.queue s /\
  Threads.output_quit s = true.
Proof.
  intros Hreach Hm Ho Hstep.
  apply reachable_invariant in Hreach.
  destruct Hreach as [_ _ _ _ _ _ Hoq Hcj _ _ _ _].
  rewrite Hm in Hoq, Hcj. cbn in Hoq, Hcj. specialize (Hcj ltac:(lia)).
  destruct l; cbn [Threads.step] in Hstep;
    unfold Threads.main_next, Threads.output_next, Threads.input_next in Hstep;
    rewrite ?Hm, ?Ho, ?Hcj in Hstep; try discriminate.
  injection Hstep as <-. auto.
Qed.

End Shutdown.

Lemma shutdown_completes_witness :
  exists ls s',
    Threads.run Sample.about_to_signal ls = Some s' /\
    Threads.mpc s' = Threads.M_done /\
    Threads.opc s' = Threads.O_exited /\
    Threads.ipc s' = Threads.I_exited /\
    Threads.lock s' = None /\
    Threads.shutdown s' = Threads.shutdown_order.
Proof.
  apply (shutdown_completes Sample.about_to_signal).
  exists Threads.Speex, Sample.racing_push. reflexivity.
Defined.

Lemma only_the_timeout_ends_the_wait_witness :
  Threads.output_timeout = @Threads.output_timeout Z /\
  Threads.opc (Threads.set_output Threads.O_woken Sample.waiting_out)
  = Threads.O_woken /\
  Threads.queue (Threads.set_output Threads.O_woken Sample.waiting_out)
  = Threads.queue Sample.waiting_out /\
  Threads.output_quit Sample.waiting_out = true.
Proof.
  apply (only_the_timeout_ends_the_wait Sample.waiting_out
           Threads.output_timeout
           (Threads.set_output Threads.O_woken Sample.waiting_out)).
  - exists Threads.Speex, Sample.missed_wake. reflexivity.
  - reflexivity.
  - reflexivity.
  - reflexivity.
Defined.

Section AfterTheInterrupt.
Context {block : Type}.
Implicit Types (s : Threads.state block) (l : Threads.label block).

Lemma step_after_interrupt s l s' :
  (Threads.main_rank (Threads.mpc s) <= 8)%nat ->
  Threads.step s l = Some s' ->
  (Threads.main_rank (Threads.mpc s') <= 8)%nat
  /\ Threads.pushed s' = Threads.pushed s
  /\ (length (Threads.queue s') <= length (Threads.queue s))%nat.
Proof.
  intros Hrank Hstep.
  destruct s as [q lk mpc opc ipc oq iq pl pu sh kd hd].
  cbn [Threads.mpc Threads.pushed Threads.queue] in *.
  destruct l; cbn [Threads.step] in Hstep;
    unfold Threads.main_next, Threads.output_next, Threads.input_next,
      Threads.acquire, Threads.cond_signal in Hstep;
    cbn [Threads.queue Threads.lock Threads.mpc Threads.opc Threads.ipc
         Threads.output_quit Threads.input_quit] in Hstep.
  - destruct mpc; cbn in Hrank; try lia; discriminate.
  - destruct mpc; cbn in Hrank; try lia; discriminate.
  - destruct mpc; cbn in Hrank; try lia;
      destruct opc, lk, ipc; cbn in Hstep; try discriminate;
      injection Hstep as <-; cbn; repeat split; lia.
  - destruct opc, lk, q, oq; cbn in Hstep; try discriminate;
      injection Hstep as <-; cbn; repeat split; lia.
  - destruct opc; try discriminate. injection Hstep as <-.
    cbn. repeat split; lia.
  - destruct ipc, iq; try discriminate; injection Hstep as <-;
      cbn; repeat split; lia.
Qed.

(** X17.  Once the main thread has seen the interrupt nothing more is
    queued: in every run from a state in which the main thread has left
    the receive loop, it stays outside the loop, the blocks ever pushed
    stay the same, and the list does not grow. *)
Theorem nothing_queued_after_interrupt s ls s' :
  (Threads.main_rank (Threads.mpc s) <= 8)%nat ->
  Threads.run s ls = Some s' ->
  (Threads.main_rank (Threads.mpc s') <= 8)%nat
  /\ Threads.pushed s' = Threads.pushed s
  /\ (length (Threads.queue s') <= length (Threads.queue s))%nat.
Proof.
  revert s. induction ls as [|l ls IH]; intros s Hrank Hrun; cbn in Hrun.
  - injection Hrun as <-. auto.
  - destruct (Threads.step s l) as [s1|] eqn:Hstep; [|discriminate].
    destruct (step_after_interrupt s l s1 Hrank Hstep) as (H1 & H2 & H3).
    destruct (IH s1 H1 Hrun) as (H4 & H5 & H6).
    split; [exact H4|]. split; [congruence|lia].
Qed.

End AfterTheInterrupt.

Lemma nothing_queued_after_interrupt_witness :
  (Threads.main_rank (Threads.mpc Sample.quiet_end) <= 8)%nat
  /\ Threads.pushed Sample.quiet_end = Threads.pushed Sample.waiting_out
  /\ (length (Threads.queue Sample.quiet_end)
      <= length (Threads.queue Sample.waiting_out))%nat.
Proof.
  apply (nothing_queued_after_interrupt Sample.waiting_out
           [Threads.output_timeout; Threads.output_step; Threads.output_step;
            Threads.main_step; Threads.main_step]
           Sample.quiet_end).
  - cbn. lia.
  - reflexivity.
Defined.

Section AfterThePlaybackThread.
Context {block : Type}.
Implicit Types (s : Threads.state block) (l : Threads.label block).

Lemma step_after_exit s l s' :
  Threads.opc s = Threads.O_exited ->
  (Threads.main_rank (Threads.mpc s) <= 8)%nat ->
  Threads.step s l = Some s' ->
  Threads.opc s' = Threads.O_exited
  /\ (Threads.main_rank (Threads.mpc s') <= 8)%nat
  /\ Threads.played s' = Threads.played s
  /\ Threads.queue s' = Threads.queue s.
Proof.
  intros Hgone Hrank Hstep.
  destruct s as [q lk mpc opc ipc oq iq pl pu sh kd hd].
  cbn [Threads.mpc Threads.opc Threads.played Threads.queue] in *.
  subst opc.
  destruct l; cbn [Threads.step] in Hstep;
    unfold Threads.main_next, Threads.output_next, Threads.input_next,
      Threads.acquire, Threads.cond_signal in Hstep;
    cbn [Threads.queue Threads.lock Threads.mpc Threads.opc Threads.ipc
         Threads.output_quit Threads.input_quit] in Hstep;
    try discriminate.
  - destruct mpc; cbn in Hrank; try lia; discriminate.
  - destruct mpc; cbn in Hrank; try lia; discriminate.
  - destruct mpc; cbn in Hrank; try lia;
      destruct lk, ipc; cbn in Hstep; try discriminate;
      injection Hstep as <-; cbn; repeat split; lia.
  - destruct ipc, iq; try discriminate; injection Hstep as <-;
      cbn; repeat split; lia.
Qed.

(** X19.  What is still queued when the playback thread leaves its loop
    is never played and never taken off the list: in every run from a
    state the threads can get into in which the playback thread has
    exited, it stays exited, and the blocks played and the list stay as
    they are. *)
Theorem queued_at_exit_stays_queued s ls s' :
  Threads.reachable s ->
  Threads.opc s = Threads.O_exited ->
  Threads.run s ls = Some s' ->
  Threads.opc s' = Threads.O_exited
  /\ Threads.played s' = Threads.played s
  /\ Threads.queue s' = Threads.queue s.
Proof.
  intros Hreach Hgone Hrun.
  apply reachable_invariant in Hreach.
  assert (Hrank : (Threads.main_rank (Threads.mpc s) <= 8)%nat).
  { destruct Hreach as [_ _ _ _ _ _ Hoq _ _ _ Hoe _].
    rewrite (Hoe Hgone) in Hoq.
    destruct (Threads.mpc s); cbn in Hoq |- *; try discriminate; lia. }
  clear Hreach. revert s Hgone Hrank Hrun.
  induction ls as [|l ls IH]; intros s Hgone Hrank Hrun; cbn in Hrun.
  - injection Hrun as <-. auto.
  - destruct (Threads.step s l) as [s1|] eqn:Hstep; [|discriminate].
    destruct (step_after_exit s l s1 Hgone Hrank Hstep) as (H1 & H2 & H3 & H4).
    destruct (IH s1 H1 H2 Hrun) as (H5 & H6 & H7).
    split; [exact H5|]. split; congruence.
Qed.

End AfterThePlaybackThread.

Lemma queued_at_exit_stays_queued_witness :
  Threads.opc Sample.all_gone = Threads.O_exited
  /\ Threads.played Sample.all_gone = Threads.played Sample.playback_gone
  /\ Threads.queue Sample.all_gone = Threads.queue Sample.playback_gone.
Proof.
  apply (queued_at_exit_stays_queued Sample.playback_gone
           [Threads.main_step; Threads.main_step] Sample.all_gone).
  - exists Threads.Speex, (take 17 Sample.interrupted_call). reflexivity.
  - reflexivity.
  - reflexivity.
Defined.

(** ** One block for each datagram *)

(** X18.  The playback thread of the codec variant plays one block for
    each datagram received: a turn that found the list empty and is not
    told to quit takes the entries off and writes as many blocks of 640
    bytes as datagrams were routed while it waited, whatever their
    payloads, and leaves the list empty; told to quit it writes nothing
    and leaves the entries queued in the order of arrival. *)
Theorem one_block_for_each_datagram (e : Codec.playback_env)
    (j : SpeexJitter) :
  exists s' evs,
    Codec.playback_body e
      {| Codec.speex_jitter := j; Codec.compressed_list := [] |}
    = (if Codec.pe_quit e then Codec.Quit s' evs else Codec.Played s' evs) /\
    if Codec.pe_quit e then
      Codec.plays evs = [] /\
      map Codec.buf (Codec.compressed_list s') = map fst (Codec.pe_arrived e)
    else
      length (Codec.plays evs) = length (Codec.pe_arrived e) /\
      Codec.compressed_list s' = [] /\
      Forall (fun w => snd w = 640) (Codec.plays evs).
Proof.
  unfold Codec.playback_body.
  pose proof (playback_wait_quiet e
                {| Codec.speex_jitter := j; Codec.compressed_list := [] |})
    as [Hplays _].
  assert (Hlist : Codec.compressed_list
                    (fst (Codec.playback_wait e
                            {| Codec.speex_jitter := j;
                               Codec.compressed_list := [] |}))
                  = map (fun p => {| Codec.buf := fst p;
                                     Codec.len := Z.of_nat (length (fst p)) |})
                      (Codec.pe_arrived e)).
  { unfold Codec.playback_wait. cbn [list_empty Codec.compressed_list fst].
    now rewrite arrive_list. }
  destruct (Codec.playback_wait e _) as [s1 evs1]. cbn [fst snd] in *.
  destruct (Codec.pe_quit e).
  - eexists _, _. split; [reflexivity|].
    split; [exact Hplays|]. rewrite Hlist, map_map. reflexivity.
  - pose proof (dequeue_plays (Codec.compressed_list s1) (Codec.speex_jitter s1))
      as [Hlen Hall].
    destruct (Codec.dequeue _ _) as [j2 evs2]. cbn [snd] in *.
    eexists _, _. split; [reflexivity|].
    rewrite codec_plays_app, Hplays. cbn [app Codec.compressed_list].
    rewrite Hlen, Hlist, length_map.
    repeat split. eapply Forall_impl; [exact Hall|]. intros w [_ Hw]. exact Hw.
Qed.
